(** * helper.py: the preprocessing transforms of the Data-Science-Keras helper

    A shallow embedding of the table transforms of [helper.py]
    ([classify_data], [remove_categories], [remove_outliers], [fill_simple],
    [scale], [replace_by_dummies]) and the properties their specification
    states about them.

    Numbers are exact rationals: a float cell is a [Q] or the missing marker
    NaN.  The arithmetic of the transforms is the one of the source with the
    rounding left out; NaN propagates through every operation and every
    comparison with NaN is false, as in numpy. *)

From Stdlib Require Import List String Ascii Bool Arith ZArith QArith Qabs Lia Lqa.
From Stdlib Require Import Sorted.
Import ListNotations.

Open Scope string_scope.
Open Scope list_scope.

(** ** Numbers with NaN *)

(** A float: [Some q] is a finite value, [None] is NaN.  A division by zero
    gives no finite value and is reported as [None] too. *)
Definition num := option Q.

Definition nlift2 (f : Q -> Q -> Q) (a b : num) : num :=
  match a, b with
  | Some x, Some y => Some (f x y)
  | _, _ => None
  end.

Definition nadd : num -> num -> num := nlift2 Qplus.
Definition nsub : num -> num -> num := nlift2 Qminus.
Definition nmul : num -> num -> num := nlift2 Qmult.

Definition ndiv (a b : num) : num :=
  match a, b with
  | Some x, Some y => if Qeq_bool y 0 then None else Some (x / y)%Q
  | _, _ => None
  end.

Definition nabs (a : num) : num := option_map Qabs a.

(** [a <= b] on floats: false as soon as one side is NaN. *)
Definition nle (a b : num) : bool :=
  match a, b with
  | Some x, Some y => Qle_bool x y
  | _, _ => false
  end.

(** [a > b] on floats: false as soon as one side is NaN. *)
Definition ngt (a b : num) : bool :=
  match a, b with
  | Some x, Some y => negb (Qle_bool x y)
  | _, _ => false
  end.

(** An executable square root on rationals, correct to six decimals and exact
    on the squares of integers; it is the instance at which the transforms
    are run on concrete tables. *)
Definition sqrt_approx (q : Q) : Q :=
  (Z.sqrt (Qnum q * 1000000000000 / Zpos (Qden q)) # 1000000)%Q.

(** ** Errors *)

Inductive error : Type :=
| AssertionError
| KeyError (k : string)
| IndexError
| AttributeError
| ValueError.

Inductive result (A : Type) : Type :=
| Ok (a : A)
| Raise (e : error).

Arguments Ok {A} a.
Arguments Raise {A} e.

Definition bind {A B} (r : result A) (k : A -> result B) : result B :=
  match r with
  | Ok a => k a
  | Raise e => Raise e
  end.

Notation "x <- r ;; k" := (bind r (fun x => k))
  (at level 61, r at next level, right associativity).
Notation "' p <- r ;; k" := (bind r (fun p => k))
  (at level 61, p pattern, r at next level, right associativity).

(** A call that does not stop on a failed assertion. *)
Definition no_assert {A} (r : result A) : Prop := r <> Raise AssertionError.

(** ** Tables *)

(** A cell of a column of labels: a label or the missing marker. *)
Definition cell := option string.

(** A column with its dtype: numbers, the pandas category dtype (the list of
    categories, then the cells) or plain objects (strings). *)
Inductive column : Type :=
| Num (v : list num)
| Cat (cats : list string) (v : list cell)
| Obj (v : list cell).

(** A data frame: the number of rows ([df.shape[0]]) and the named columns in
    their order. *)
Record frame : Type := Frame {
  shape0 : nat;
  cols : list (string * column)
}.

(** A Python dict with string keys, in insertion order. *)
Definition dict (V : Type) := list (string * V).

Fixpoint lookup {V} (k : string) (d : dict V) : option V :=
  match d with
  | [] => None
  | (k', v) :: d' => if String.eqb k k' then Some v else lookup k d'
  end.

(** [d[k] = v] *)
Fixpoint update {V} (k : string) (v : V) (d : dict V) : dict V :=
  match d with
  | [] => [(k, v)]
  | (k', v') :: d' =>
      if String.eqb k k' then (k, v) :: d' else (k', v') :: update k v d'
  end.

(** [x in l] *)
Definition mem (x : string) (l : list string) : bool :=
  existsb (String.eqb x) l.

(** Python's truth value of an optional list or dict: [None] and the empty
    container are both false. *)
Definition truthy {A} (o : option (list A)) : bool :=
  match o with
  | Some (_ :: _) => true
  | _ => false
  end.

Definition names (df : frame) : list string := map fst (cols df).

Definition is_number (c : column) : bool :=
  match c with Num _ => true | _ => false end.

Definition is_category (c : column) : bool :=
  match c with Cat _ _ => true | _ => false end.

(** [list(df.select_dtypes(include=['category']))] *)
Definition select_category (df : frame) : list string :=
  map fst (filter (fun c => is_category (snd c)) (cols df)).

(** The cells of a column, whatever its dtype. *)
Definition column_values (c : column) : list num + list cell :=
  match c with
  | Num v => inl v
  | Cat _ v | Obj v => inr v
  end.

(** The values of a column without the missing ones. *)
Definition dropna {A} (v : list (option A)) : list A :=
  flat_map (fun c => match c with Some x => [x] | None => [] end) v.

(** ** Statistics of a numerical column (pandas skips NaN) *)

Definition Qsum (l : list Q) : Q := fold_right Qplus 0%Q l.

Definition Qsize (l : list Q) : Q := inject_Z (Z.of_nat (List.length l)).

Definition Qmin2 (a b : Q) : Q := if Qle_bool a b then a else b.
Definition Qmax2 (a b : Q) : Q := if Qle_bool a b then b else a.

(** [Series.mean()]: NaN when the column has no value. *)
Definition series_mean (v : list num) : num :=
  match dropna v with
  | [] => None
  | xs => Some (Qsum xs / Qsize xs)%Q
  end.

(** [Series.min()] and [Series.max()]. *)
Definition series_min (v : list num) : num :=
  match dropna v with
  | [] => None
  | x :: xs => Some (fold_left Qmin2 xs x)
  end.

Definition series_max (v : list num) : num :=
  match dropna v with
  | [] => None
  | x :: xs => Some (fold_left Qmax2 xs x)
  end.

Section Helper.

(** The square root of the numeric library, used by [Series.std()].  The
    properties below hold whatever function computes it. *)
Variable sqrtQ : Q -> Q.

(** [Series.std()], with pandas' default [ddof=1]: the square root of the sum
    of the squared deviations over [count - 1]; NaN when the column has fewer
    than two values. *)
Definition series_std (v : list num) : num :=
  let xs := dropna v in
  match series_mean v with
  | None => None
  | Some m =>
      if (List.length xs <=? 1)%nat then None
      else Some (sqrtQ (Qsum (map (fun x => (x - m) * (x - m)) xs)
                        / (Qsize xs - 1)))%Q
  end.

(** ** scale *)

Definition scale_param_t := dict (num * num).

(** The assertion on [method]. *)
Definition valid_method (method : string) : bool :=
  String.eqb method "std" || String.eqb method "minmax"
  || String.eqb method "maxabs".

(** The body of the loop [for f in num] for the column [f] with values [v]:
    the new values of the column and the new [scale_param]. *)
Definition scale_column (method : string) (create_scale : bool)
    (scale_param : scale_param_t) (f : string) (v : list num)
  : result (list num * scale_param_t) :=
  if String.eqb method "std" then
    if create_scale then
      let mean := series_mean v in
      let std := series_std v in
      Ok (map (fun x => ndiv (nsub x mean) std) v,
          update f (mean, std) scale_param)
    else
      match lookup f scale_param with
      | None => Raise (KeyError f)
      | Some p =>
          Ok (map (fun x => ndiv (nsub x (fst p)) (snd p)) v, scale_param)
      end
  else if String.eqb method "minmax" then
    if create_scale then
      let min := series_min v in
      let max := series_max v in
      Ok (map (fun x => ndiv (nsub x min) (nsub max min)) v,
          update f (min, max) scale_param)
    else
      match lookup f scale_param with
      | None => Raise (KeyError f)
      | Some p =>
          let min := fst p in
          let max := snd p in
          Ok (map (fun x => ndiv (nsub x min) (nsub max min)) v, scale_param)
      end
  else if String.eqb method "maxabs" then
    if create_scale then
      let min := series_min v in
      let max := series_max v in
      Ok (map (fun x =>
                 nsub (ndiv (nmul (Some 2%Q) (nsub x min)) (nsub max min))
                      (Some 1%Q)) v,
          update f (min, max) scale_param)
    else
      match lookup f scale_param with
      | None => Raise (KeyError f)
      | Some p =>
          let min := fst p in
          let max := snd p in
          Ok (map (fun x =>
                     nmul (Some 0.5%Q)
                          (nadd (nadd (nmul x (nsub max min)) max) min)) v,
              scale_param)
      end
  else Ok (v, scale_param).

(** The loop [for f in num], over the columns in their order: a column that
    is not numerical is not in [num] and is left as it is. *)
Fixpoint scale_loop (method : string) (create_scale : bool)
    (data : list (string * column)) (scale_param : scale_param_t)
  : result (list (string * column) * scale_param_t) :=
  match data with
  | [] => Ok ([], scale_param)
  | (f, Num v) :: rest =>
      '(v', sp) <- scale_column method create_scale scale_param f v ;;
      '(rest', sp') <- scale_loop method create_scale rest sp ;;
      Ok ((f, Num v') :: rest', sp')
  | c :: rest =>
      '(rest', sp') <- scale_loop method create_scale rest scale_param ;;
      Ok (c :: rest', sp')
  end.

Definition scale (data : frame) (scale_param : option scale_param_t)
    (method : string) : result (frame * scale_param_t) :=
  if negb (valid_method method) then Raise AssertionError
  else
    let create_scale := negb (truthy scale_param) in
    let scale_param :=
      match scale_param with
      | Some d => if create_scale then [] else d
      | None => []
      end in
    '(data', sp) <- scale_loop method create_scale (cols data) scale_param ;;
    Ok (Frame (shape0 data) data', sp).

(** ** remove_outliers *)

(** One numerical column of [num_df[np.abs(num_df - num_df.mean()) <=
    (sigma * num_df.std())]]: a cell is kept where the comparison is true
    and is NaN elsewhere. *)
Definition remove_outliers_column (sigma : Q) (v : list num) : list num :=
  let mean := series_mean v in
  let std := series_std v in
  map (fun x =>
         if nle (nabs (nsub x mean)) (nmul (Some sigma) std) then x
         else None) v.

(** The table after the call (the returned copy, or the table itself when
    [inplace] is set). *)
Definition remove_outliers (df : frame) (sigma : Q) : frame :=
  Frame (shape0 df)
    (map (fun c =>
            match snd c with
            | Num v => (fst c, Num (remove_outliers_column sigma v))
            | _ => c
            end) (cols df)).

(** ** Categories *)

(** Sorted insertion, for the sorted lists of pandas. *)
Fixpoint insert_sorted {A} (leb : A -> A -> bool) (x : A) (l : list A)
  : list A :=
  match l with
  | [] => [x]
  | y :: l' => if leb x y then x :: l else y :: insert_sorted leb x l'
  end.

Definition sort {A} (leb : A -> A -> bool) (l : list A) : list A :=
  fold_right (insert_sorted leb) [] l.

(** The distinct elements of a list, the first occurrence of each kept. *)
Fixpoint unique {A} (eqb : A -> A -> bool) (l : list A) : list A :=
  match l with
  | [] => []
  | x :: l' => x :: filter (fun y => negb (eqb x y)) (unique eqb l')
  end.

(** [Series.astype('category')] of a column of strings: the categories are the
    distinct values, sorted. *)
Definition categorize (v : list cell) : column :=
  Cat (sort String.leb (unique String.eqb (dropna v))) v.

(** The text of a number, as [str] prints it; it names the categories of a
    numerical column turned into a category column. *)
Variable str_of_float : Q -> string.

(** The number a text denotes, as [float] reads it; [None] when it denotes
    none. *)
Variable float_of_str : string -> option Q.

(** [Series.astype('category')] *)
Definition astype_category (c : column) : column :=
  match c with
  | Cat cats v => Cat cats v
  | Obj v => categorize v
  | Num v =>
      Cat (map str_of_float (sort Qle_bool (unique Qeq_bool (dropna v))))
          (map (option_map str_of_float) v)
  end.

(** [Series.astype(np.float32)]: a text that denotes no number raises. *)
Fixpoint floats_of_cells (v : list cell) : result (list num) :=
  match v with
  | [] => Ok []
  | None :: v' => r <- floats_of_cells v' ;; Ok (None :: r)
  | Some s :: v' =>
      match float_of_str s with
      | None => Raise ValueError
      | Some q => r <- floats_of_cells v' ;; Ok (Some q :: r)
      end
  end.

Definition astype_float32 (c : column) : result column :=
  match c with
  | Num v => Ok (Num v)
  | Cat _ v | Obj v => r <- floats_of_cells v ;; Ok (Num r)
  end.

(** ** force_categorical *)

Definition force_categorical (df : frame) : frame :=
  Frame (shape0 df)
    (map (fun c =>
            match snd c with
            | Obj v => (fst c, categorize v)
            | _ => c
            end) (cols df)).

(** ** classify_data *)

(** [df[labels]]: the named columns, in the order of [labels]. *)
Fixpoint select (data : list (string * column)) (labels : list string)
  : result (list (string * column)) :=
  match labels with
  | [] => Ok []
  | l :: labels' =>
      match lookup l data with
      | None => Raise (KeyError l)
      | Some c => r <- select data labels' ;; Ok ((l, c) :: r)
      end
  end.

(** A loop [for f in labels: df[f] = body(f, df[f])], over the columns in
    their order; [body] leaves a column that is not in [labels] as it is. *)
Fixpoint for_columns (body : string -> column -> result column)
    (data : list (string * column)) : result (list (string * column)) :=
  match data with
  | [] => Ok []
  | (f, c) :: rest =>
      c' <- body f c ;;
      rest' <- for_columns body rest ;;
      Ok ((f, c') :: rest')
  end.

(** [for n in labels: df[n] = cast(df[n])] *)
Definition cast_columns (cast : column -> result column)
    (labels : list string) (data : list (string * column))
  : result (list (string * column)) :=
  for_columns (fun f c => if mem f labels then cast c else Ok c) data.

Definition classify_data (df : frame) (target : list string)
    (numerical categorical : option (list string)) : result frame :=
  if negb (truthy numerical || truthy categorical) then Raise AssertionError
  else
    let categorical :=
      match categorical with
      | Some (c :: cs) => c :: cs
      | _ =>
          filter (fun col => negb (mem col (match numerical with
                                            | Some l => l
                                            | None => []
                                            end))) (names df)
      end in
    let numerical :=
      match numerical with
      | Some (n :: ns) => n :: ns
      | _ => filter (fun col => negb (mem col categorical)) (names df)
      end in
    let numerical_f := filter (fun col => negb (mem col target)) numerical in
    let categorical_f :=
      filter (fun col => negb (mem col target)) categorical in
    data <- select (cols df) (numerical_f ++ categorical_f ++ target) ;;
    data <- cast_columns astype_float32 numerical data ;;
    data <- cast_columns (fun c => Ok (astype_category c)) categorical data ;;
    Ok (Frame (shape0 df) data).

(** ** remove_categories *)

(** [if not target: target = []] *)
Definition target_list (target : option (list string)) : list string :=
  match target with
  | Some l => l
  | None => []
  end.

Definition categories_t := dict (list string).

(** The number of cells of [v] that hold the label [c]. *)
Definition count_label (c : string) (v : list cell) : nat :=
  List.length (filter (String.eqb c) (dropna v)).

(** [Series.cat.set_categories(new)]: the cells whose label is not in [new]
    become missing; a list with a repeated category is refused. *)
Fixpoint has_duplicates (l : list string) : bool :=
  match l with
  | [] => false
  | x :: l' => mem x l' || has_duplicates l'
  end.

Definition keep_labels (keep : string -> bool) (v : list cell) : list cell :=
  map (fun x =>
         match x with
         | Some s => if keep s then Some s else None
         | None => None
         end) v.

Definition set_categories (new : list string) (v : list cell)
  : result column :=
  if has_duplicates new then Raise ValueError
  else Ok (Cat new (keep_labels (fun s => mem s new) v)).

(** [count = df[f].value_counts(); list(count[count < threshold].index)]: the
    categories of the column, the unused ones too, that occur less than
    [threshold] times. *)
Definition low_freq (threshold : Q) (cats : list string) (v : list cell)
  : list string :=
  filter (fun c =>
            negb (Qle_bool threshold
                    (inject_Z (Z.of_nat (count_label c v))))) cats.

(** [Series.cat.remove_unused_categories()] *)
Definition remove_unused_categories (cats : list string) (v : list cell)
  : list string :=
  filter (fun c => mem c (dropna v)) cats.

(** The body of the loop of the fit branch for one category column: the
    column after the call and the categories recorded for it. *)
Definition remove_categories_column (threshold : Q) (cats : list string)
    (v : list cell) : column :=
  let low := low_freq threshold cats v in
  match low with
  | [] => Cat cats v
  | _ :: _ =>
      let v' := keep_labels (fun s => negb (mem s low)) v in
      Cat (remove_unused_categories cats v') v'
  end.

Definition column_categories (c : column) : list string :=
  match c with
  | Cat cats _ => cats
  | _ => []
  end.

(** The loops [for f in categorical_f], over the columns in their order. *)
Fixpoint remove_categories_loop (threshold : Q) (target : list string)
    (apply : bool) (data : list (string * column))
    (dict_categories : categories_t)
  : result (list (string * column) * categories_t) :=
  match data with
  | [] => Ok ([], dict_categories)
  | (f, Cat cats v) :: rest =>
      if mem f target then
        '(rest', d) <-
          remove_categories_loop threshold target apply rest
            dict_categories ;;
        Ok ((f, Cat cats v) :: rest', d)
      else if apply then
        match lookup f dict_categories with
        | None => Raise (KeyError f)
        | Some new =>
            c <- set_categories new v ;;
            '(rest', d) <-
              remove_categories_loop threshold target apply rest
                dict_categories ;;
            Ok ((f, c) :: rest', d)
        end
      else
        let c := remove_categories_column threshold cats v in
        '(rest', d) <-
          remove_categories_loop threshold target apply rest
            (update f (column_categories c) dict_categories) ;;
        Ok ((f, c) :: rest', d)
  | c :: rest =>
      '(rest', d) <-
        remove_categories_loop threshold target apply rest dict_categories ;;
      Ok (c :: rest', d)
  end.

Definition remove_categories (df : frame) (target : option (list string))
    (ratio : Q) (dict_categories : option categories_t)
  : result (frame * categories_t) :=
  let threshold := (inject_Z (Z.of_nat (shape0 df)) * ratio)%Q in
  let target := target_list target in
  let df := force_categorical df in
  let apply := truthy dict_categories in
  let dict_categories :=
    match dict_categories with
    | Some d => if apply then d else []
    | None => []
    end in
  '(data, d) <-
    remove_categories_loop threshold target apply (cols df)
      dict_categories ;;
  Ok (Frame (shape0 df) data, d).

(** ** fill_simple *)

(** [Series.fillna(value)] *)
Definition fillna {A} (value : A) (v : list (option A)) : list (option A) :=
  map (fun x => match x with Some a => Some a | None => Some value end) v.

(** [Series.median()]: the middle value of the sorted values, or the mean of
    the two middle ones. *)
Definition series_median (v : list num) : num :=
  let xs := sort Qle_bool (dropna v) in
  let n := List.length xs in
  if Nat.odd n then nth_error xs (n / 2)
  else
    match nth_error xs (n / 2 - 1), nth_error xs (n / 2) with
    | Some a, Some b => Some ((a + b) / 2)%Q
    | _, _ => None
    end.

(** Filling with NaN fills nothing. *)
Definition fillna_num (value : num) (v : list num) : list num :=
  match value with
  | Some q => fillna q v
  | None => v
  end.

(** The most frequent labels among [labels], in the order of [labels]. *)
Definition modes_of (labels : list string) (v : list cell) : list string :=
  let top :=
    fold_right Nat.max 0%nat (map (fun c => count_label c v) labels) in
  filter (fun c =>
            (0 <? count_label c v)%nat && (count_label c v =? top)%nat)
         labels.

(** [Series.mode()]: the most frequent values, sorted: in the order of the
    categories for a category column, in the order of the strings for a
    column of objects. *)
Definition series_mode (c : column) : list string :=
  match c with
  | Cat cats v => modes_of cats v
  | Obj v => modes_of (sort String.leb (unique String.eqb (dropna v))) v
  | Num _ => []
  end.

(** [col not in numerical and col not in target] *)
Definition is_categorical_f (target : list string) (c : string * column)
  : bool :=
  negb (is_number (snd c)) && negb (mem (fst c) target).

(** [col in numerical and col not in target] *)
Definition is_numerical_f (target : list string) (c : string * column)
  : bool :=
  is_number (snd c) && negb (mem (fst c) target).

(** The body of the numerical loop. *)
Definition fill_numerical (missing_numerical : string) (v : list num)
  : list num :=
  if String.eqb missing_numerical "median" then
    fillna_num (series_median v) v
  else if String.eqb missing_numerical "mean" then
    fillna_num (series_mean v) v
  else v.

(** The body of the categorical loops.  [modes.iloc[0, idx]] is the first
    mode of the column, NaN when the column has none, and it raises when the
    table of the modes has no row, which [has_row] tells. *)
Definition fill_categorical (missing_categorical : string) (has_row : bool)
    (c : column) : result column :=
  if String.eqb missing_categorical "mode" then
    if negb has_row then Raise IndexError
    else
      match hd_error (series_mode c), c with
      | Some m, Cat cats v => Ok (Cat cats (fillna m v))
      | Some m, Obj v => Ok (Obj (fillna m v))
      | _, _ => Ok c
      end
  else
    match c with
    | Cat cats v =>
        let cats :=
          if mem missing_categorical cats then cats
          else cats ++ [missing_categorical] in
        Ok (Cat cats (fillna missing_categorical v))
    | _ => Raise AttributeError
    end.

(** The bodies of the two loops, for the column [f]. *)
Definition fill_column (target : list string)
    (missing_numerical missing_categorical : string)
    (include_numerical include_categorical has_row : bool)
    (f : string) (c : column) : result column :=
  match c with
  | Num v =>
      if include_numerical && is_numerical_f target (f, c)
      then Ok (Num (fill_numerical missing_numerical v))
      else Ok c
  | _ =>
      if include_categorical && is_categorical_f target (f, c)
      then fill_categorical missing_categorical has_row c
      else Ok c
  end.

(** The table after the call (the returned copy, or the table itself when
    [inplace] is set). *)
Definition fill_simple (df : frame) (target : list string)
    (missing_numerical missing_categorical : string)
    (include_numerical include_categorical : bool) : result frame :=
  let has_row :=
    existsb (fun c =>
               match series_mode (snd c) with [] => false | _ => true end)
            (filter (is_categorical_f target) (cols df)) in
  data <- for_columns
            (fill_column target missing_numerical missing_categorical
               include_numerical include_categorical has_row) (cols df) ;;
  Ok (Frame (shape0 df) data).

(** ** replace_by_dummies *)

(** The categories and the cells of a column seen as a category column. *)
Definition categorical_view (c : column) : list string * list cell :=
  match astype_category c with
  | Cat cats v => (cats, v)
  | Num _ | Obj _ => ([], [])
  end.

(** [pd.get_dummies(s, prefix=f, drop_first=drop_first)]: one column of 0
    and 1 per category, named [f_category]; a missing cell is 0 in each. *)
Definition get_dummies (c : column) (prefix : string) (drop_first : bool)
  : list (string * column) :=
  let (cats, v) := categorical_view c in
  map (fun cat =>
         ((prefix ++ "_" ++ cat)%string,
          Num (map (fun x =>
                      match x with
                      | Some s => if String.eqb s cat then Some 1%Q
                                  else Some 0%Q
                      | None => Some 0%Q
                      end) v)))
      (if drop_first then tl cats else cats).

(** [data.drop(n, axis=1)] *)
Definition drop (n : string) (data : list (string * column))
  : list (string * column) :=
  filter (fun c => negb (String.eqb n (fst c))) data.

(** [data[m] = 0] *)
Definition assign_zero (rows : nat) (m : string)
    (data : list (string * column)) : list (string * column) :=
  let zeros := Num (repeat (Some 0%Q) rows) in
  if mem m (map fst data) then
    map (fun c => if String.eqb m (fst c) then (fst c, zeros) else c) data
  else data ++ [(m, zeros)].

(** [categorical_f]: the category columns that are no target. *)
Definition categorical_f (data : frame) (target : list string)
  : list string :=
  filter (fun col => negb (mem col target)) (select_category data).

(** The loop [for f in categorical_f]. *)
Fixpoint dummies_loop (drop_first : bool) (categorical_f : list string)
    (data : list (string * column)) (found_dummies : list string)
  : result (list (string * column) * list string) :=
  match categorical_f with
  | [] => Ok (data, found_dummies)
  | f :: fs =>
      match lookup f data with
      | None => Raise (KeyError f)
      | Some c =>
          let dummy := get_dummies c f drop_first in
          dummies_loop drop_first fs (drop f (data ++ dummy))
            (found_dummies ++ map fst dummy)
      end
  end.

(** The loop [for dummy in dummies: data[dummy] =
    data[dummy].astype('category')]. *)
Fixpoint categorize_loop (dummies : list string)
    (data : list (string * column)) : result (list (string * column)) :=
  match dummies with
  | [] => Ok data
  | dummy :: ds =>
      if mem dummy (map fst data) then
        categorize_loop ds
          (map (fun c =>
                  if String.eqb dummy (fst c)
                  then (fst c, astype_category (snd c)) else c) data)
      else Raise (KeyError dummy)
  end.

(** The two sets of the reconciliation are walked in the order of the first
    occurrences, one of the orders Python may walk them in. *)
Definition replace_by_dummies (data : frame) (target : list string)
    (dummies : option (list string)) (drop_first : bool)
  : result (frame * list string) :=
  let create_dummies := negb (truthy dummies) in
  '(cs, found_dummies) <-
    dummies_loop drop_first (categorical_f data target) (cols data) [] ;;
  let '(cs, dummies) :=
    if create_dummies then (cs, found_dummies)
    else
      let dummies := match dummies with Some l => l | None => [] end in
      let new :=
        filter (fun n => negb (mem n dummies))
               (unique String.eqb found_dummies) in
      let cs := fold_left (fun cs n => drop n cs) new cs in
      let missing :=
        filter (fun m => negb (mem m found_dummies))
               (unique String.eqb dummies) in
      let cs :=
        fold_left (fun cs m => assign_zero (shape0 data) m cs) missing cs in
      (cs, dummies) in
  cs <- categorize_loop dummies cs ;;
  Ok (Frame (shape0 data) cs, dummies).

End Helper.

(** A printer of numbers that knows the two values of an indicator column; it
    is the instance at which [replace_by_dummies] is run on concrete
    tables. *)
Definition str_indicator (q : Q) : string :=
  if Qeq_bool q 0 then "0" else if Qeq_bool q 1 then "1" else "?".


(** ** The fit branch of scale, column by column *)

(** The values and the statistics that the fit branch of [scale] computes for
    a numerical column. *)
Definition fit_of (sqrtQ : Q -> Q) (method : string) (v : list num)
  : list num * (num * num) :=
  if String.eqb method "std" then
    (map (fun x => ndiv (nsub x (series_mean v)) (series_std sqrtQ v)) v,
     (series_mean v, series_std sqrtQ v))
  else if String.eqb method "minmax" then
    (map (fun x => ndiv (nsub x (series_min v))
                     (nsub (series_max v) (series_min v))) v,
     (series_min v, series_max v))
  else
    (map (fun x =>
            nsub (ndiv (nmul (Some 2%Q) (nsub x (series_min v)))
                       (nsub (series_max v) (series_min v)))
                 (Some 1%Q)) v,
     (series_min v, series_max v)).

Definition fit_cols (sqrtQ : Q -> Q) (method : string)
    (data : list (string * column)) : list (string * column) :=
  map (fun c =>
         match snd c with
         | Num v => (fst c, Num (fst (fit_of sqrtQ method v)))
         | _ => c
         end) data.

Fixpoint fit_params (sqrtQ : Q -> Q) (method : string)
    (data : list (string * column)) (sp : scale_param_t) : scale_param_t :=
  match data with
  | [] => sp
  | (f, Num v) :: rest =>
      fit_params sqrtQ method rest (update f (snd (fit_of sqrtQ method v)) sp)
  | _ :: rest => fit_params sqrtQ method rest sp
  end.

(** ** The fit branch of remove_categories, column by column *)

Definition level_cols (threshold : Q) (target : list string)
    (data : list (string * column)) : list (string * column) :=
  map (fun c =>
         match snd c with
         | Cat cats v =>
             if mem (fst c) target then c
             else (fst c, remove_categories_column threshold cats v)
         | _ => c
         end) data.

Fixpoint level_vocabulary (threshold : Q) (target : list string)
    (data : list (string * column)) (d : categories_t) : categories_t :=
  match data with
  | [] => d
  | (f, Cat cats v) :: rest =>
      if mem f target then level_vocabulary threshold target rest d
      else
        level_vocabulary threshold target rest
          (update f
             (column_categories (remove_categories_column threshold cats v))
             d)
  | _ :: rest => level_vocabulary threshold target rest d
  end.

(** A table restricted to the vocabulary [V]: every column of labels that is
    no target has an entry in [V], a list without repetition that holds
    every label of the column. *)
Definition restricted_column (V : categories_t) (target : list string)
    (c : string * column) : bool :=
  match snd c with
  | Num _ => true
  | Cat _ v | Obj v =>
      mem (fst c) target
      || match lookup (fst c) V with
         | Some new =>
             negb (has_duplicates new)
             && forallb (fun s => mem s new) (dropna v)
         | None => false
         end
  end.

Definition restricted_to (V : categories_t) (target : list string)
    (df : frame) : bool :=
  forallb (restricted_column V target) (cols df).

(** The name and the cells of every column. *)
Definition frame_values (data : list (string * column))
  : list (string * (list num + list cell)) :=
  map (fun c => (fst c, column_values (snd c))) data.

(** ** The mode of a column of labels *)

(** The cells of a column of labels. *)
Definition column_cells (c : column) : list cell :=
  match c with
  | Cat _ v | Obj v => v
  | Num _ => []
  end.

(** The order in which the labels of a column are sorted: the order of its
    categories, and for a column of objects the order of the strings. *)
Definition label_order (c : column) : list string :=
  match c with
  | Cat cats _ => cats
  | Obj v => sort String.leb (unique String.eqb (dropna v))
  | Num _ => []
  end.

(** The mode as the specification words it: the most frequent label and,
    when several labels tie, the one whose first occurrence in the cells
    comes first. *)
Definition mode_by_first_occurrence (v : list cell) : option string :=
  hd_error (modes_of (unique String.eqb (dropna v)) v).

(** ** The indicator columns that replace_by_dummies produces *)

(** The names of the indicator columns that the columns [fs] of [cs] expand
    into. *)
Definition produced_from (str_of_float : Q -> string) (drop_first : bool)
    (cs : list (string * column)) (fs : list string) : list string :=
  flat_map (fun f =>
              match lookup f cs with
              | Some c => map fst (get_dummies str_of_float c f drop_first)
              | None => []
              end) fs.

Definition produced_dummies (str_of_float : Q -> string) (data : frame)
    (target : list string) (drop_first : bool) : list string :=
  produced_from str_of_float drop_first (cols data)
    (categorical_f data target).

(** The column that [data[m] = 0] makes. *)
Definition zeros (rows : nat) : column := Num (repeat (Some 0%Q) rows).

(** ** The other functions of the module *)

(** [remove_lowfreq], the older form of [remove_categories]: the body of its
    loop for one category column, under the test [len(low_freq) > 0]. *)
Definition remove_lowfreq_column (threshold : Q) (cats : list string)
    (v : list cell) : column :=
  let low := low_freq threshold cats v in
  if (0 <? List.length low)%nat then
    let v' := keep_labels (fun s => negb (mem s low)) v in
    Cat (remove_unused_categories cats v') v'
  else Cat cats v.

(** The table after the call (the returned copy, or the table itself when
    [inplace] is set). *)
Definition remove_lowfreq (df : frame) (target : option (list string))
    (ratio : Q) : frame :=
  let threshold := (inject_Z (Z.of_nat (shape0 df)) * ratio)%Q in
  let target := target_list target in
  let df := force_categorical df in
  Frame (shape0 df)
    (map (fun c =>
            match snd c with
            | Cat cats v =>
                if mem (fst c) target then c
                else (fst c, remove_lowfreq_column threshold cats v)
            | _ => c
            end) (cols df)).

(** [df.isnull().sum()] for one column. *)
Definition isnull {A} (x : option A) : bool :=
  match x with
  | Some _ => false
  | None => true
  end.

Definition count_null (c : column) : nat :=
  match c with
  | Num v => List.length (filter isnull v)
  | Cat _ v | Obj v => List.length (filter isnull v)
  end.

(** [m = df.isnull().sum(); m = m[m > 0]; m = m.sort_values(ascending=True)]:
    the columns that have missing cells, with the number of them, in
    ascending order; columns with the same number are kept in their order,
    one of the orders the sort may leave them in. *)
Definition missing_counts (df : frame) : list (string * nat) :=
  sort (fun a b => (snd a <=? snd b)%nat)
    (filter (fun p => (0 <? snd p)%nat)
       (map (fun c => (fst c, count_null (snd c))) (cols df))).

(** [missing]: the value it returns, [None] when it returns nothing; the
    plot is left out.  [limit] is tested for its truth value: no limit and
    the limit 0 are the same. *)
Definition missing (df : frame) (limit : option Q) : option (list string) :=
  let size := shape0 df in
  let m := missing_counts df in
  match m with
  | [] => Some []
  | _ :: _ =>
      let missing_ratio :=
        map (fun p =>
               (fst p,
                ndiv (Some (inject_Z (Z.of_nat (snd p))))
                     (Some (inject_Z (Z.of_nat size))))) m in
      match limit with
      | Some l =>
          if Qeq_bool l 0 then None
          else
            Some (map fst
                    (filter (fun p => ngt (snd p) (Some l)) missing_ratio))
      | None => None
      end
  end.

(** The test [missing_ratio > limit] on a column with [n] missing cells. *)
Definition over_limit (df : frame) (limit : Q) (p : string * nat) : bool :=
  ngt (ndiv (Some (inject_Z (Z.of_nat (snd p))))
            (Some (inject_Z (Z.of_nat (shape0 df))))) (Some limit).

(** [simple_fill], [standardize] and [create_dummy]: the older names of
    [fill_simple], [scale] and [replace_by_dummies], called with their
    default arguments. *)
Definition simple_fill (df : frame) (target : list string)
    (include_numerical include_categorical : bool) : result frame :=
  fill_simple df target "median" "mode" include_numerical
    include_categorical.

Definition standardize (sqrtQ : Q -> Q) (data : frame)
    (use_scale : option scale_param_t) : result (frame * scale_param_t) :=
  scale sqrtQ data use_scale "std".

Definition create_dummy (str_of_float : Q -> string) (data : frame)
    (target : list string) (use_dummies : option (list string))
  : result (frame * list string) :=
  replace_by_dummies str_of_float data target use_dummies false.

(** ** Well-formed tables *)

Definition column_length (c : column) : nat :=
  match c with
  | Num v => List.length v
  | Cat _ v | Obj v => List.length v
  end.

(** Every column has [df.shape[0]] rows. *)
Definition well_formed (df : frame) : bool :=
  forallb (fun c => (column_length (snd c) =? shape0 df)%nat) (cols df).

(** The invariant of the category dtype: the categories of a column are
    distinct and hold every label of its cells. *)
Definition category_invariant (c : column) : bool :=
  match c with
  | Cat cats v =>
      negb (has_duplicates cats) && forallb (fun s => mem s cats) (dropna v)
  | _ => true
  end.

Definition categories_ok (df : frame) : bool :=
  forallb (fun c => category_invariant (snd c)) (cols df).

(** ** The replay branch of scale, column by column *)

(** The values that the replay branch of [scale] computes for a numerical
    column from the recorded pair [p]. *)
Definition replay_of (method : string) (p : num * num) (v : list num)
  : list num :=
  if String.eqb method "std" then
    map (fun x => ndiv (nsub x (fst p)) (snd p)) v
  else if String.eqb method "minmax" then
    map (fun x => ndiv (nsub x (fst p)) (nsub (snd p) (fst p))) v
  else
    map (fun x =>
           nmul (Some 0.5%Q)
                (nadd (nadd (nmul x (nsub (snd p) (fst p))) (snd p))
                      (fst p))) v.

Definition replay_cols (method : string) (sp : scale_param_t)
    (data : list (string * column)) : list (string * column) :=
  map (fun c =>
         match snd c, lookup (fst c) sp with
         | Num v, Some p => (fst c, Num (replay_of method p v))
         | _, _ => c
         end) data.

(** Two cells that hold the same number, or are both missing. *)
Definition same_cell (x y : num) : Prop :=
  match x, y with
  | Some a, Some b => (a == b)%Q
  | None, None => True
  | _, _ => False
  end.

(** A cell that was kept or blanked. *)
Definition kept_or_blanked {A} (x x' : option A) : Prop :=
  x' = x \/ x' = None.

(** A cell that kept the value it had, if it had one. *)
Definition value_kept {A} (x x' : option A) : Prop :=
  forall a, x = Some a -> x' = Some a.




(** ** Columns before and after a transform *)

(** A column after [scale]: it keeps its name; a numerical column stays
    numerical, cell for cell, a missing cell staying missing; another column
    is as it was. *)
Definition scaled_column (c c' : string * column) : Prop :=
  fst c' = fst c
  /\ match snd c with
     | Num v =>
         exists v',
           snd c' = Num v' /\ Forall2 (fun x x' => x = None -> x' = None) v v'
     | _ => snd c' = snd c
     end.

(** A column after [remove_outliers]: it keeps its name; the cells of a
    numerical column are kept or blanked; another column is as it was. *)
Definition blanked_column (c c' : string * column) : Prop :=
  fst c' = fst c
  /\ match snd c with
     | Num v => exists v', snd c' = Num v' /\ Forall2 kept_or_blanked v v'
     | _ => snd c' = snd c
     end.

(** A column after [remove_categories]: it keeps its name; a numerical column
    is as it was; a column of labels is a category column whose cells are
    kept or blanked. *)
Definition levelled_column (c c' : string * column) : Prop :=
  fst c' = fst c
  /\ match snd c with
     | Num v => snd c' = Num v
     | Cat _ v | Obj v =>
         exists cats' v',
           snd c' = Cat cats' v' /\ Forall2 kept_or_blanked v v'
     end.

(** A column after [fill_simple]: it keeps its name and its dtype; a target
    column is as it was; a cell that held a value keeps it; a category column
    keeps its categories, maybe with one more. *)
Definition filled_column (target : list string) (c c' : string * column)
  : Prop :=
  fst c' = fst c
  /\ (mem (fst c) target = true -> snd c' = snd c)
  /\ match snd c with
     | Num v => exists v', snd c' = Num v' /\ Forall2 value_kept v v'
     | Cat cats v =>
         exists cats' v',
           snd c' = Cat cats' v' /\ incl cats cats'
           /\ Forall2 value_kept v v'
     | Obj v => exists v', snd c' = Obj v' /\ Forall2 value_kept v v'
     end.

(** The columns of [categorical_f] in [remove_categories]: the category
    columns, after [force_categorical], that are no target. *)
Definition is_candidate (target : list string) (c : string * column) : bool :=
  match snd c with
  | Cat _ _ => negb (mem (fst c) target)
  | _ => false
  end.

(** A vocabulary that [remove_categories] can replay on the column [f]: it
    has an entry for [f], without a repeated category. *)
Definition replayable (V : categories_t) (f : string) : bool :=
  match lookup f V with
  | Some new => negb (has_duplicates new)
  | None => false
  end.

(** ** Tables of the examples *)

(** A numerical column [0, 1, 2]. *)
Definition table_012 : frame :=
  Frame 3 [("x", Num [Some 0%Q; Some 1%Q; Some 2%Q])].

(** The numerical column of the outlier example of the specification. *)
Definition values_100 : list num :=
  [Some 1%Q; Some 2%Q; Some 3%Q; Some 4%Q; Some 100%Q].

Definition table_100 : frame := Frame 5 [("x", Num values_100)].

(** A table of one row. *)
Definition table_single : frame := Frame 1 [("x", Num [Some 5%Q])].

(** A feature [x] and a numerical target [y]. *)
Definition table_target : frame :=
  Frame 5 [("x", Num [Some 0%Q; Some 1%Q; Some 2%Q; Some 3%Q; Some 4%Q]);
           ("y", Num values_100)].

(** A numerical column with a missing cell. *)
Definition table_missing : frame :=
  Frame 4 [("x", Num [Some 1%Q; None; Some 3%Q; Some 5%Q])].

(** The ten cities of the specification, nine A and one B. *)
Definition table_cities : frame :=
  Frame 10 [("city", Obj (repeat (Some "A") 9 ++ [Some "B"]))].

(** A category column in which b and a tie, b met first, and the same cells
    as a column of objects. *)
Definition cells_tie : list cell := [Some "b"; Some "a"; None].

Definition table_tie : frame :=
  Frame 3 [("c", Cat ["a"; "b"] cells_tie); ("o", Obj cells_tie)].

(** A feature [x], a category column [c] and a target [t] of labels. *)
Definition table_mixed : frame :=
  Frame 3 [("x", Num [Some 1%Q; None; Some 3%Q]);
           ("c", Cat ["a"; "b"; "z"] [Some "a"; None; Some "b"]);
           ("t", Obj [Some "u"; None; Some "w"])].

(** A table that holds the categories A and C. *)
Definition table_AC : frame :=
  Frame 2 [("x", Num [Some 1%Q; Some 2%Q]);
           ("c", Cat ["A"; "C"] [Some "A"; Some "C"])].

(** * Properties *)

(** The names of a concrete table are distinct. *)
Ltac distinct_names :=
  repeat constructor; simpl; intuition discriminate.

(** ** Dictionaries and membership *)

Lemma lookup_update_same {V} (k : string) (v : V) (d : dict V) :
  lookup k (update k v d) = Some v.
Proof.
  induction d as [|[k' v'] d IH]; simpl.
  - now rewrite String.eqb_refl.
  - destruct (String.eqb k k') eqn:E; simpl.
    + now rewrite String.eqb_refl.
    + now rewrite E.
Qed.

Lemma lookup_update_other {V} (k k' : string) (v : V) (d : dict V) :
  k <> k' -> lookup k (update k' v d) = lookup k d.
Proof.
  intros Hne. induction d as [|[k2 v2] d IH]; simpl.
  - destruct (String.eqb k k') eqn:E; auto.
    apply String.eqb_eq in E. contradiction.
  - destruct (String.eqb k' k2) eqn:E; simpl.
    + apply String.eqb_eq in E. subst k2.
      destruct (String.eqb k k') eqn:E2; auto.
      apply String.eqb_eq in E2. contradiction.
    + destruct (String.eqb k k2); auto.
Qed.

Lemma mem_In (x : string) (l : list string) : mem x l = true <-> In x l.
Proof.
  unfold mem. rewrite existsb_exists. split.
  - intros [y [Hy E]]. apply String.eqb_eq in E. now subst.
  - intros H. exists x. split; auto. apply String.eqb_refl.
Qed.

Lemma mem_false (x : string) (l : list string) :
  mem x l = false <-> ~ In x l.
Proof.
  rewrite <- mem_In. destruct (mem x l); split; congruence.
Qed.

Lemma lookup_None {V} (k : string) (d : dict V) :
  lookup k d = None <-> ~ In k (map fst d).
Proof.
  induction d as [|[k' v'] d IH]; simpl; [tauto|].
  destruct (String.eqb k k') eqn:E.
  - apply String.eqb_eq in E. subst. split; [discriminate|]. intros H.
    exfalso. apply H. now left.
  - apply String.eqb_neq in E. rewrite IH. split.
    + intros H [H1|H1]; [congruence|contradiction].
    + intros H H1. apply H. now right.
Qed.

(** ** Lists and results *)

Lemma Forall2_map_r {A B} (R : A -> B -> Prop) (g : A -> B) (l : list A) :
  (forall x, In x l -> R x (g x)) -> Forall2 R l (map g l).
Proof.
  induction l as [|x l IH]; simpl; intros H; constructor; auto.
Qed.

Lemma hd_error_filter {A} (p : A -> bool) (l : list A) (m : A) :
  hd_error (filter p l) = Some m ->
  exists before after,
    l = before ++ m :: after /\ p m = true
    /\ forall s, In s before -> p s = false.
Proof.
  induction l as [|x l IH]; simpl; [discriminate|].
  destruct (p x) eqn:E; simpl.
  - intros [= ->]. exists [], l. repeat split; auto. intros s [].
  - intros H. destruct (IH H) as (before & after & -> & Hm & Hb).
    exists (x :: before), after. repeat split; auto.
    intros s [<-|Hs]; auto.
Qed.

Lemma fold_max_ge {A} (g : A -> nat) (l : list A) (s : A) :
  In s l -> (g s <= fold_right Nat.max 0 (map g l))%nat.
Proof.
  induction l as [|x l IH]; simpl; [contradiction|].
  intros [->|H]; [lia|]. specialize (IH H). lia.
Qed.

Lemma flat_map_ext_In {A B} (g h : A -> list B) (l : list A) :
  (forall a, In a l -> g a = h a) -> flat_map g l = flat_map h l.
Proof.
  induction l as [|a l IH]; simpl; intros H; [reflexivity|].
  rewrite H by now left. f_equal. apply IH. intros b Hb. apply H.
  now right.
Qed.

Lemma NoDup_filter {A} (p : A -> bool) (l : list A) :
  NoDup l -> NoDup (filter p l).
Proof.
  induction 1 as [|x l Hx Hnd IH]; simpl; [constructor|].
  destruct (p x); auto. constructor; auto. rewrite filter_In. tauto.
Qed.

Lemma NoDup_map_filter {A B} (g : A -> B) (p : A -> bool) (l : list A) :
  NoDup (map g l) -> NoDup (map g (filter p l)).
Proof.
  induction l as [|x l IH]; simpl; intros H; [constructor|].
  inversion H as [|? ? Hx Hnd]; subst. destruct (p x); simpl; auto.
  constructor; auto. rewrite in_map_iff in *.
  intros [y [Hy Hin]]. apply Hx. exists y. split; auto.
  apply filter_In in Hin. tauto.
Qed.

Lemma In_dropna {A} (x : A) (v : list (option A)) :
  In x (dropna v) <-> In (Some x) v.
Proof.
  unfold dropna. rewrite in_flat_map. split.
  - intros [[y|] [Hy Hx]]; simpl in Hx; [|contradiction].
    destruct Hx as [->|[]]. exact Hy.
  - intros H. exists (Some x). split; auto. now left.
Qed.

Lemma In_unique (x : string) (l : list string) :
  In x (unique String.eqb l) <-> In x l.
Proof.
  induction l as [|y l IH]; simpl; [tauto|].
  rewrite filter_In, IH, negb_true_iff, String.eqb_neq.
  destruct (string_dec y x) as [->|Hne]; [tauto|].
  split; [tauto|]. intros [H|H]; [contradiction|]. right. auto.
Qed.

Lemma lookup_Some {V} (k : string) (d : dict V) :
  In k (map fst d) -> exists v, lookup k d = Some v.
Proof.
  intros H. destruct (lookup k d) as [v|] eqn:E; [now exists v|].
  apply lookup_None in E. contradiction.
Qed.

Lemma lookup_app_l {V} (k : string) (v : V) (d d' : dict V) :
  lookup k d = Some v -> lookup k (d ++ d') = Some v.
Proof.
  induction d as [|[k' v'] d IH]; simpl; [discriminate|].
  destruct (String.eqb k k'); auto.
Qed.

Lemma bind_Ok {A B} (r : result A) (k : A -> result B) (b : B) :
  bind r k = Ok b -> exists a, r = Ok a /\ k a = Ok b.
Proof.
  destruct r as [a|e]; simpl; [|discriminate]. intros H. now exists a.
Qed.

Lemma no_assert_bind {A B} (r : result A) (k : A -> result B) :
  no_assert r -> (forall a, no_assert (k a)) -> no_assert (bind r k).
Proof.
  unfold no_assert. intros Hr Hk. destruct r as [a|e]; simpl.
  - apply Hk.
  - intros [= ->]. now apply Hr.
Qed.

Lemma no_assert_Ok {A} (a : A) : no_assert (Ok a).
Proof. discriminate. Qed.

#[local] Hint Resolve no_assert_Ok : core.

(** ** Loops over the columns *)

Lemma for_columns_nth (body : string -> column -> result column)
    (data data' : list (string * column)) :
  for_columns body data = Ok data' ->
  forall i f c,
    nth_error data i = Some (f, c) ->
    exists c', nth_error data' i = Some (f, c') /\ body f c = Ok c'.
Proof.
  revert data'. induction data as [|[g c0] rest IH]; intros data' H i f c Hi.
  - destruct i; discriminate.
  - simpl in H. apply bind_Ok in H as (c1 & Hc1 & H).
    apply bind_Ok in H as (rest' & Hrest & H). injection H as <-.
    destruct i as [|i]; simpl in *.
    + injection Hi as -> ->. now exists c1.
    + now apply (IH rest').
Qed.

Lemma for_columns_total (body : string -> column -> result column)
    (data : list (string * column)) :
  (forall f c, exists c', body f c = Ok c') ->
  exists data', for_columns body data = Ok data'.
Proof.
  intros Hb. induction data as [|[f c] rest [rest' IH]]; simpl.
  - now exists [].
  - destruct (Hb f c) as [c' Hc']. exists ((f, c') :: rest').
    now rewrite Hc', IH.
Qed.

Lemma for_columns_no_assert (body : string -> column -> result column)
    (data : list (string * column)) :
  (forall f c, no_assert (body f c)) -> no_assert (for_columns body data).
Proof.
  intros Hc. induction data as [|[f c] rest IH]; simpl; auto.
  apply no_assert_bind; auto.
  intros c'. apply no_assert_bind; auto.
Qed.

Lemma cast_columns_no_assert (cast : column -> result column)
    (labels : list string) (data : list (string * column)) :
  (forall c, no_assert (cast c)) -> no_assert (cast_columns cast labels data).
Proof.
  intros Hc. apply for_columns_no_assert. intros f c.
  destruct (mem f labels); auto.
Qed.

Lemma select_no_assert (data : list (string * column))
    (labels : list string) : no_assert (select data labels).
Proof.
  induction labels as [|l labels IH]; simpl; auto.
  destruct (lookup l data); [|discriminate].
  apply no_assert_bind; auto.
Qed.

(** ** remove_categories *)


Lemma In_dropna_keep_labels (keep : string -> bool) (c : string)
    (v : list cell) :
  In c (dropna (keep_labels keep v)) <-> In (Some c) v /\ keep c = true.
Proof.
  rewrite In_dropna. unfold keep_labels. rewrite in_map_iff. split.
  - intros [[s|] [Hs Hin]].
    + destruct (keep s) eqn:E; [|discriminate]. injection Hs as ->. auto.
    + discriminate.
  - intros [Hin Hk]. exists (Some c). now rewrite Hk.
Qed.

Lemma keep_labels_id (keep : string -> bool) (v : list cell) :
  (forall s, In (Some s) v -> keep s = true) -> keep_labels keep v = v.
Proof.
  induction v as [|[s|] v IH]; simpl; intros H; auto.
  - rewrite (H s) by now left. f_equal. apply IH. intros t Ht. apply H.
    now right.
  - f_equal. apply IH. intros t Ht. apply H. now right.
Qed.





Lemma remove_categories_loop_fit (threshold : Q) (target : list string)
    (data : list (string * column)) :
  forall d,
    remove_categories_loop threshold target false data d =
    Ok (level_cols threshold target data,
        level_vocabulary threshold target data d).
Proof.
  induction data as [|[f c] rest IH]; intros d; simpl; [reflexivity|].
  destruct c as [v|cats v|v]; simpl.
  - rewrite IH. reflexivity.
  - destruct (mem f target); rewrite IH; reflexivity.
  - rewrite IH. reflexivity.
Qed.

Lemma level_vocabulary_other (threshold : Q) (target : list string)
    (f : string) (data : list (string * column)) :
  ~ In f (map fst data) ->
  forall d, lookup f (level_vocabulary threshold target data d) = lookup f d.
Proof.
  induction data as [|[g c] rest IH]; intros Hf d; simpl; [reflexivity|].
  simpl in Hf.
  assert (Hg : f <> g) by (intros ->; apply Hf; now left).
  assert (Hr : ~ In f (map fst rest)) by (intros H; apply Hf; now right).
  destruct c; [now apply IH| |now apply IH].
  destruct (mem g target); rewrite IH by assumption; auto.
  now apply lookup_update_other.
Qed.

Lemma level_vocabulary_lookup (threshold : Q) (target : list string)
    (f : string) (cats : list string) (v : list cell)
    (data : list (string * column)) :
  NoDup (map fst data) -> In (f, Cat cats v) data -> ~ In f target ->
  forall d,
    lookup f (level_vocabulary threshold target data d) =
    Some (column_categories (remove_categories_column threshold cats v)).
Proof.
  induction data as [|[g c] rest IH]; intros Hnd Hin Ht d; simpl in *;
    [contradiction|].
  inversion Hnd as [|? ? Hnot Hnd']; subst.
  destruct Hin as [Hin|Hin].
  - injection Hin as -> ->. apply mem_false in Ht. rewrite Ht.
    rewrite level_vocabulary_other by assumption. apply lookup_update_same.
  - destruct c; auto. destruct (mem g target); auto.
Qed.

Lemma names_force_categorical (df : frame) :
  names (force_categorical df) = names df.
Proof.
  unfold names, force_categorical. simpl. rewrite map_map. apply map_ext.
  intros [g [w|cats w|w]]; reflexivity.
Qed.


(** The examples of the specification: ten rows, nine of the city A.  With
    [ratio = 0.1] the threshold is 1 and the city B, that occurs once, is
    kept; with [ratio = 0.2] the threshold is 2 and the city C, that occurs
    once, is collapsed. *)
Example remove_categories_threshold_examples :
  remove_categories
    (Frame 10 [("city", Obj (repeat (Some "A") 9 ++ [Some "B"]))])
    None 0.1 None =
  Ok (Frame 10
        [("city", Cat ["A"; "B"] (repeat (Some "A") 9 ++ [Some "B"]))],
      [("city", ["A"; "B"])])
  /\ remove_categories
       (Frame 10 [("city", Obj (repeat (Some "A") 9 ++ [Some "C"]))])
       None 0.2 None =
     Ok (Frame 10 [("city", Cat ["A"] (repeat (Some "A") 9 ++ [None]))],
         [("city", ["A"])]).
Proof. split; reflexivity. Qed.

Lemma restricted_label_column (V : categories_t) (target : list string)
    (f : string) (v : list cell) :
  match lookup f V with
  | Some new =>
      negb (has_duplicates new) && forallb (fun s => mem s new) (dropna v)
  | None => false
  end = true ->
  exists new,
    lookup f V = Some new /\ V <> []
    /\ set_categories new v = Ok (Cat new v).
Proof.
  intros H.
  destruct (lookup f V) as [new|] eqn:E; [|discriminate].
  exists new. split; [reflexivity|]. split.
  { intros ->. discriminate. }
  apply andb_true_iff in H as [Hd Hall]. apply negb_true_iff in Hd.
  unfold set_categories. rewrite Hd. rewrite keep_labels_id; auto.
  intros s Hs. rewrite forallb_forall in Hall. apply Hall.
  now apply In_dropna.
Qed.

Lemma remove_categories_loop_restricted (V : categories_t)
    (target : list string) (data : list (string * column)) :
  forallb (restricted_column V target) data = true ->
  exists data',
    (forall threshold,
        remove_categories_loop threshold target (truthy (Some V))
          (cols (force_categorical (Frame 0 data))) V = Ok (data', V))
    /\ frame_values data' = frame_values data.
Proof.
  induction data as [|[f c] rest IH]; simpl; intros H.
  - exists []. split; reflexivity.
  - apply andb_true_iff in H as [Hc Hrest].
    destruct (IH Hrest) as (rest' & Hloop & Hval). clear IH.
    simpl in Hloop. unfold restricted_column in Hc. simpl in Hc.
    assert (Hlabel : forall cats v,
      (mem f target
       || match lookup f V with
          | Some new =>
              negb (has_duplicates new)
              && forallb (fun s => mem s new) (dropna v)
          | None => false
          end) = true ->
      exists c',
        (forall threshold,
            remove_categories_loop threshold target (truthy (Some V))
              ((f, Cat cats v)
               :: map (fun c0 : string * column =>
                         match snd c0 with
                         | Obj v0 => (fst c0, categorize v0)
                         | _ => c0
                         end) rest) V = Ok ((f, c') :: rest', V))
        /\ column_values c' = inr v).
    { intros cats v Hv. destruct (mem f target) eqn:Ht.
      - exists (Cat cats v). split; [|reflexivity]. intros threshold.
        simpl. rewrite Ht, Hloop. reflexivity.
      - simpl in Hv.
        destruct (restricted_label_column V target f v Hv)
          as (new & Hl & Hne & Hset).
        exists (Cat new v). split; [|reflexivity]. intros threshold.
        simpl. rewrite Ht.
        destruct V as [|kv V']; [congruence|]. simpl truthy. cbv iota.
        rewrite Hl, Hset. simpl. rewrite Hloop. reflexivity. }
    destruct c as [v|cats v|v]; simpl.
    + exists ((f, Num v) :: rest'). split.
      * intros threshold. rewrite Hloop. reflexivity.
      * unfold frame_values in *. simpl. now rewrite Hval.
    + destruct (Hlabel cats v Hc) as (c' & Hc' & Hv').
      exists ((f, c') :: rest'). split; [exact Hc'|].
      unfold frame_values in *. simpl. now rewrite Hval, Hv'.
    + destruct (Hlabel (sort String.leb (unique String.eqb (dropna v))) v Hc)
        as (c' & Hc' & Hv').
      exists ((f, c') :: rest'). split; [exact Hc'|].
      unfold frame_values in *. simpl. now rewrite Hval, Hv'.
Qed.

(** C4. The replay of [remove_categories] is idempotent: on a table whose
    columns of labels that are no target hold only labels of the vocabulary
    [V], the call with [dict_categories = V] returns, hands [V] back and
    leaves the name and the cells of every column as they are; and the
    result is the same whatever [ratio] is, the threshold on the frequencies
    of the table playing no part in it. *)
Theorem remove_categories_replay_idempotent (df : frame)
    (target : option (list string)) (ratio : Q) (V : categories_t) :
  restricted_to V (target_list target) df = true ->
  exists out,
    remove_categories df target ratio (Some V) = Ok (out, V)
    /\ shape0 out = shape0 df
    /\ frame_values (cols out) = frame_values (cols df)
    /\ forall ratio',
        remove_categories df target ratio' (Some V) = Ok (out, V).
Proof.
  intros H.
  destruct (remove_categories_loop_restricted V (target_list target)
              (cols df) H) as (data' & Hloop & Hval).
  exists (Frame (shape0 df) data').
  assert (Hcall : forall r,
             remove_categories df target r (Some V) =
             Ok (Frame (shape0 df) data', V)).
  { intros r. unfold remove_categories.
    replace (if truthy (Some V) then V else []) with V
      by (destruct V; reflexivity).
    simpl in Hloop. simpl. rewrite Hloop. reflexivity. }
  split; [apply Hcall|]. split; [reflexivity|]. split; [exact Hval|].
  exact Hcall.
Qed.


(** ** fill_simple *)

(** The first mode of a list of labels: the first label of the list among
    the most frequent ones. *)
Lemma modes_of_first (labels : list string) (v : list cell) (m : string) :
  hd_error (modes_of labels v) = Some m ->
  (forall s, In s labels -> (count_label s v <= count_label m v)%nat)
  /\ exists before after,
      labels = before ++ m :: after
      /\ forall s, In s before -> (count_label s v < count_label m v)%nat.
Proof.
  unfold modes_of. intros H.
  apply hd_error_filter in H as (before & after & Hl & Hm & Hb).
  apply andb_true_iff in Hm as [Hpos Htop].
  apply Nat.ltb_lt in Hpos. apply Nat.eqb_eq in Htop.
  assert (Hge : forall s, In s labels ->
            (count_label s v <= count_label m v)%nat).
  { intros s Hs. rewrite Htop.
    apply (fold_max_ge (fun c => count_label c v) labels s Hs). }
  split; [exact Hge|]. exists before, after. split; [exact Hl|].
  intros s Hs. specialize (Hb s Hs).
  assert (Hin : In s labels) by (rewrite Hl; apply in_or_app; now left).
  specialize (Hge s Hin). apply andb_false_iff in Hb as [Hb|Hb].
  - apply Nat.ltb_ge in Hb. lia.
  - apply Nat.eqb_neq in Hb. rewrite <- Htop in Hb. lia.
Qed.

Lemma series_mode_label_order (c : column) :
  is_number c = false ->
  series_mode c = modes_of (label_order c) (column_cells c).
Proof.
  destruct c; [discriminate| |]; reflexivity.
Qed.

Lemma fill_column_mode_total (target : list string)
    (missing_numerical : string) (include_numerical include_categorical : bool)
    (f : string) (c : column) :
  exists c',
    fill_column target missing_numerical "mode" include_numerical
      include_categorical true f c = Ok c'.
Proof.
  unfold fill_column, fill_categorical. simpl.
  destruct c as [v|cats v|v];
    repeat match goal with
           | |- exists c', (if ?b then _ else _) = Ok c' => destruct b
           | |- exists c', match hd_error ?l with _ => _ end = Ok c' =>
               destruct (hd_error l)
           end; eauto.
Qed.

(** C9, amended. In [fill_simple] with [missing_categorical = 'mode'], for
    every column of labels that is no target and has a mode: the call
    returns and the missing cells of the column are filled with the first
    mode [m] of the column, its other cells staying as they are; [m] is a
    most frequent label of the column and, when several labels tie, the one
    that comes first in the sorted order of the labels (the order of the
    categories of the column; the order of the strings for a column of
    objects), not the one that occurs first in the cells. *)
Theorem fill_simple_mode_choice (df : frame) (target : list string)
    (missing_numerical : string) (include_numerical : bool) (i : nat)
    (f : string) (c : column) (m : string) :
  nth_error (cols df) i = Some (f, c) ->
  is_number c = false ->
  ~ In f target ->
  hd_error (series_mode c) = Some m ->
  let v := column_cells c in
  exists out c',
    fill_simple df target missing_numerical "mode" include_numerical true
    = Ok out
    /\ nth_error (cols out) i = Some (f, c')
    /\ column_values c' = inr (fillna m v)
    /\ (forall s, In s (label_order c) ->
         (count_label s v <= count_label m v)%nat)
    /\ exists before after,
        label_order c = before ++ m :: after
        /\ forall s, In s before -> (count_label s v < count_label m v)%nat.
Proof.
  intros Hi Hc Ht Hm v.
  assert (Hrow :
    existsb (fun c0 : string * column =>
               match series_mode (snd c0) with [] => false | _ => true end)
            (filter (is_categorical_f target) (cols df)) = true).
  { apply existsb_exists. exists (f, c). split.
    - apply filter_In. split; [eapply nth_error_In; eauto|].
      unfold is_categorical_f. simpl. rewrite Hc.
      apply mem_false in Ht. now rewrite Ht.
    - simpl. destruct (series_mode c); [discriminate|reflexivity]. }
  destruct (for_columns_total
              (fill_column target missing_numerical "mode" include_numerical
                 true true) (cols df)) as [data' Hdata].
  { intros g c0. apply fill_column_mode_total. }
  destruct (for_columns_nth _ _ _ Hdata i f c Hi) as (c' & Hc' & Hbody).
  exists (Frame (shape0 df) data'), c'. split.
  { unfold fill_simple. rewrite Hrow, Hdata. reflexivity. }
  split; [exact Hc'|]. split.
  { unfold fill_column, fill_categorical in Hbody. simpl in Hbody.
    unfold is_categorical_f in Hbody. simpl in Hbody.
    apply mem_false in Ht. rewrite Ht in Hbody.
    destruct c as [w|cats w|w]; [discriminate| |]; simpl in Hbody;
      simpl in Hm; rewrite Hm in Hbody; injection Hbody as <-; reflexivity. }
  rewrite (series_mode_label_order c Hc) in Hm.
  apply modes_of_first in Hm. exact Hm.
Qed.

(** ** The columns of a table *)

Lemma lookup_drop_other (f g : string) (cs : list (string * column)) :
  f <> g -> lookup f (drop g cs) = lookup f cs.
Proof.
  intros Hne. induction cs as [|[k c] cs IH]; simpl; [reflexivity|].
  destruct (String.eqb g k) eqn:E; simpl.
  - apply String.eqb_eq in E. subst k.
    destruct (String.eqb f g) eqn:E2; [|exact IH].
    apply String.eqb_eq in E2. contradiction.
  - rewrite IH. reflexivity.
Qed.

Lemma names_drop (g n : string) (cs : list (string * column)) :
  In n (map fst (drop g cs)) <-> In n (map fst cs) /\ n <> g.
Proof.
  unfold drop. rewrite !in_map_iff. split.
  - intros [[k c] [Hk Hin]]. apply filter_In in Hin as [Hin Hneq].
    simpl in *. subst k. apply negb_true_iff, String.eqb_neq in Hneq.
    split; [|congruence]. now exists (n, c).
  - intros [[[k c] [Hk Hin]] Hne]. simpl in Hk. subst k.
    exists (n, c). split; auto. apply filter_In. split; auto. simpl.
    apply negb_true_iff, String.eqb_neq. congruence.
Qed.

Lemma In_drop (g : string) (x : string * column)
    (cs : list (string * column)) :
  In x (drop g cs) -> In x cs.
Proof.
  unfold drop. rewrite filter_In. tauto.
Qed.

Lemma names_fold_drop (l : list string) :
  forall cs n,
    In n (map fst (fold_left (fun cs n => drop n cs) l cs)) <->
    In n (map fst cs) /\ ~ In n l.
Proof.
  induction l as [|g l IH]; intros cs n; simpl; [tauto|].
  rewrite IH, names_drop. split.
  - intros [[H Hne] Hl]. split; auto. intros [E|E]; [congruence|auto].
  - intros [H Hl]. split; [split; auto|]; intros E; apply Hl; auto.
Qed.

Lemma names_assign_zero (rows : nat) (m n : string)
    (cs : list (string * column)) :
  In n (map fst (assign_zero rows m cs)) <-> In n (map fst cs) \/ n = m.
Proof.
  unfold assign_zero. destruct (mem m (map fst cs)) eqn:E.
  - apply mem_In in E.
    replace (map fst (map (fun c : string * column =>
                             if String.eqb m (fst c)
                             then (fst c, Num (repeat (Some 0%Q) rows))
                             else c) cs)) with (map fst cs).
    + split; [tauto|]. intros [H| ->]; auto.
    + rewrite map_map. apply map_ext. intros [k c]. simpl.
      destruct (String.eqb m k); reflexivity.
  - rewrite map_app, in_app_iff. simpl. split.
    + intros [H|[H|[]]]; auto.
    + intros [H|H]; auto.
Qed.

Lemma names_fold_assign (rows : nat) (l : list string) :
  forall cs n,
    In n (map fst (fold_left (fun cs m => assign_zero rows m cs) l cs)) <->
    In n (map fst cs) \/ In n l.
Proof.
  induction l as [|g l IH]; intros cs n; simpl; [tauto|].
  rewrite IH, names_assign_zero. split.
  - intros [[H|H]|H]; auto.
  - intros [H|[H|H]]; auto.
Qed.

Lemma assign_zero_keeps (rows : nat) (m m' : string)
    (cs : list (string * column)) :
  (forall c, In (m, c) cs -> c = zeros rows) ->
  forall c, In (m, c) (assign_zero rows m' cs) -> c = zeros rows.
Proof.
  intros H c. unfold assign_zero. destruct (mem m' (map fst cs)).
  - rewrite in_map_iff. intros [[k c0] [Hk Hin]]. simpl in Hk.
    destruct (String.eqb m' k).
    + now injection Hk as _ <-.
    + injection Hk as -> ->. auto.
  - rewrite in_app_iff. intros [Hin|[Hin|[]]]; auto.
    now injection Hin as _ <-.
Qed.

Lemma assign_zero_zeros (rows : nat) (m : string)
    (cs : list (string * column)) :
  forall c, In (m, c) (assign_zero rows m cs) -> c = zeros rows.
Proof.
  intros c. unfold assign_zero. destruct (mem m (map fst cs)) eqn:E.
  - rewrite in_map_iff. intros [[k c0] [Hk Hin]]. simpl in Hk.
    destruct (String.eqb m k) eqn:E2.
    + now injection Hk as _ <-.
    + injection Hk as -> ->. rewrite String.eqb_refl in E2. discriminate.
  - apply mem_false in E. rewrite in_app_iff. intros [Hin|[Hin|[]]].
    + exfalso. apply E. change m with (fst (m, c)). now apply in_map.
    + now injection Hin as <-.
Qed.

Lemma fold_assign_keeps (rows : nat) (m : string) (l : list string) :
  forall cs,
    (forall c, In (m, c) cs -> c = zeros rows) ->
    forall c,
      In (m, c) (fold_left (fun cs m => assign_zero rows m cs) l cs) ->
      c = zeros rows.
Proof.
  induction l as [|g l IH]; intros cs H c; simpl; [apply H|].
  apply IH. now apply assign_zero_keeps.
Qed.

Lemma fold_assign_zeros (rows : nat) (m : string) (l : list string) :
  In m l ->
  forall cs c,
    In (m, c) (fold_left (fun cs m => assign_zero rows m cs) l cs) ->
    c = zeros rows.
Proof.
  induction l as [|g l IH]; intros Hm cs c; simpl; [contradiction|].
  destruct Hm as [-> |Hm].
  - apply fold_assign_keeps. apply assign_zero_zeros.
  - now apply IH.
Qed.

Lemma fold_drop_In (l : list string) :
  forall cs x, In x (fold_left (fun cs n => drop n cs) l cs) -> In x cs.
Proof.
  induction l as [|g l IH]; intros cs x; simpl; auto.
  intros H. apply IH in H. now apply In_drop in H.
Qed.

Lemma categorical_f_in_names (data : frame) (target : list string)
    (f : string) :
  In f (categorical_f data target) -> In f (names data).
Proof.
  unfold categorical_f, select_category, names. rewrite filter_In.
  intros [H _]. apply in_map_iff in H as [c [<- Hc]].
  apply filter_In in Hc as [Hc _]. now apply in_map.
Qed.

Lemma NoDup_categorical_f (data : frame) (target : list string) :
  NoDup (names data) -> NoDup (categorical_f data target).
Proof.
  intros H. unfold categorical_f, select_category.
  apply NoDup_filter. now apply NoDup_map_filter.
Qed.

Lemma valid_method_cases (method : string) :
  valid_method method = true ->
  method = "std" \/ method = "minmax" \/ method = "maxabs".
Proof.
  unfold valid_method. intros H.
  apply orb_true_iff in H as [H|H]; [apply orb_true_iff in H as [H|H]|];
    apply String.eqb_eq in H; auto.
Qed.

Section Numerical.

Set Default Proof Using "Type".

(** The square root of the numeric library. *)
Variable sqrtQ : Q -> Q.

(** ** scale *)

Lemma scale_column_fit (method : string) (sp : scale_param_t) (f : string)
    (v : list num) :
  valid_method method = true ->
  scale_column sqrtQ method true sp f v =
  Ok (fst (fit_of sqrtQ method v), update f (snd (fit_of sqrtQ method v)) sp).
Proof.
  intros H. apply valid_method_cases in H as [->| [->| ->]]; reflexivity.
Qed.

Lemma scale_loop_fit (method : string) (data : list (string * column)) :
  valid_method method = true ->
  forall sp,
    scale_loop sqrtQ method true data sp =
    Ok (fit_cols sqrtQ method data, fit_params sqrtQ method data sp).
Proof.
  intros Hm. induction data as [|[f c] rest IH]; intros sp; simpl.
  - reflexivity.
  - destruct c as [v|cats v|v]; simpl.
    + rewrite scale_column_fit by assumption. simpl. rewrite IH. reflexivity.
    + rewrite IH. reflexivity.
    + rewrite IH. reflexivity.
Qed.

Lemma scale_fit (data : frame) (method : string) :
  valid_method method = true ->
  scale sqrtQ data None method =
  Ok (Frame (shape0 data) (fit_cols sqrtQ method (cols data)),
      fit_params sqrtQ method (cols data) []).
Proof.
  intros Hm. unfold scale. rewrite Hm. simpl.
  rewrite scale_loop_fit by assumption. reflexivity.
Qed.

Lemma fit_params_other (method : string) (f : string)
    (data : list (string * column)) :
  ~ In f (map fst data) ->
  forall sp, lookup f (fit_params sqrtQ method data sp) = lookup f sp.
Proof.
  induction data as [|[g c] rest IH]; intros Hf sp; simpl; [reflexivity|].
  simpl in Hf.
  assert (Hg : f <> g) by (intros ->; apply Hf; now left).
  assert (Hr : ~ In f (map fst rest)) by (intros H; apply Hf; now right).
  destruct c; rewrite IH by assumption; auto.
  now apply lookup_update_other.
Qed.

Lemma fit_params_lookup (method : string) (f : string) (v : list num)
    (data : list (string * column)) :
  NoDup (map fst data) -> In (f, Num v) data ->
  forall sp,
    lookup f (fit_params sqrtQ method data sp) =
    Some (snd (fit_of sqrtQ method v)).
Proof.
  induction data as [|[g c] rest IH]; intros Hnd Hin sp; simpl in *;
    [contradiction|].
  inversion Hnd as [|? ? Hnot Hnd']; subst.
  destruct Hin as [Hin|Hin].
  - injection Hin as -> ->.
    rewrite fit_params_other by assumption. apply lookup_update_same.
  - destruct c; auto.
Qed.

(** The replay of [scale] with the statistics recorded at fit time gives the
    values of the fit, for the methods std and minmax. *)
Lemma scale_column_replay (method : string) (sp : scale_param_t) (f : string)
    (v : list num) :
  method = "std" \/ method = "minmax" ->
  scale_column sqrtQ method false
    (update f (snd (fit_of sqrtQ method v)) sp) f v =
  Ok (fst (fit_of sqrtQ method v),
      update f (snd (fit_of sqrtQ method v)) sp).
Proof.
  intros [->| ->]; unfold scale_column, fit_of; simpl;
    rewrite lookup_update_same; reflexivity.
Qed.

Lemma scale_loop_replay (method : string) (p : scale_param_t)
    (data : list (string * column)) :
  method = "std" \/ method = "minmax" ->
  (forall f v,
      In (f, Num v) data ->
      lookup f p = Some (snd (fit_of sqrtQ method v))) ->
  scale_loop sqrtQ method false data p = Ok (fit_cols sqrtQ method data, p).
Proof.
  intros Hm. induction data as [|[f c] rest IH]; intros Hp; simpl.
  - reflexivity.
  - assert (Hrest : scale_loop sqrtQ method false rest p =
                    Ok (fit_cols sqrtQ method rest, p)).
    { apply IH. intros g w Hg. apply Hp. now right. }
    destruct c as [v|cats v|v]; simpl; [|now rewrite Hrest..].
    assert (Hv : scale_column sqrtQ method false p f v =
                 Ok (fst (fit_of sqrtQ method v), p)).
    { specialize (Hp f v (or_introl eq_refl)).
      destruct Hm as [-> | ->]; unfold scale_column, fit_of in *;
        simpl in *; rewrite Hp; reflexivity. }
    rewrite Hv. simpl. now rewrite Hrest.
Qed.

(** For the methods std and minmax, replaying [scale] on the fitted table
    with the statistics the fit returned gives what the fit gave. *)
Lemma scale_replay_std_minmax (data : frame) (method : string) :
  method = "std" \/ method = "minmax" ->
  NoDup (names data) ->
  fit_params sqrtQ method (cols data) [] <> [] ->
  scale sqrtQ data (Some (fit_params sqrtQ method (cols data) [])) method =
  scale sqrtQ data None method.
Proof.
  intros Hm Hnd Hne.
  assert (Hv : valid_method method = true)
    by (destruct Hm as [-> | ->]; reflexivity).
  rewrite scale_fit by assumption. unfold scale. rewrite Hv.
  destruct (fit_params sqrtQ method (cols data) []) as [|kv p] eqn:E;
    [congruence|].
  simpl. rewrite <- E. rewrite scale_loop_replay; auto.
  intros f v Hin. now apply fit_params_lookup.
Qed.

(** C1. On the column [0, 1, 2], method maxabs: the fit gives [-1, 0, 1] and
    records [min, max] = [0, 2]; the replay of the same column with the
    recorded [0, 2] gives [1, 2, 3]: the replay branch of maxabs computes
    [0.5 * (x * (max - min) + max + min)], the inverse of the map of the fit
    branch, where the branches of std and minmax replay the map of the
    fit. *)
Theorem scale_maxabs_replay_differs :
  scale sqrtQ table_012 None "maxabs" =
    Ok (Frame 3 [("x", Num [Some (-2 # 2)%Q; Some (0 # 2)%Q; Some (2 # 2)%Q])],
        [("x", (Some 0%Q, Some 2%Q))])
  /\ scale sqrtQ table_012 (Some [("x", (Some 0%Q, Some 2%Q))]) "maxabs" =
    Ok (Frame 3 [("x", Num [Some 1.0%Q; Some 2.0%Q; Some 3.0%Q])],
        [("x", (Some 0%Q, Some 2%Q))])
  /\ ~ (-2 # 2 == 1.0)%Q.
Proof.
  split; [reflexivity|]. split; [reflexivity|]. intros H. discriminate H.
Qed.

Lemma scale_column_no_assert (method : string) (create_scale : bool)
    (sp : scale_param_t) (f : string) (v : list num) :
  no_assert (scale_column sqrtQ method create_scale sp f v).
Proof.
  unfold scale_column.
  repeat match goal with
         | |- no_assert (if ?b then _ else _) => destruct b
         | |- no_assert (match lookup ?k ?d with _ => _ end) =>
             destruct (lookup k d)
         end; auto; discriminate.
Qed.

Lemma scale_loop_no_assert (method : string) (create_scale : bool)
    (data : list (string * column)) :
  forall sp, no_assert (scale_loop sqrtQ method create_scale data sp).
Proof.
  induction data as [|[f c] rest IH]; intros sp; simpl; auto.
  destruct c.
  - apply no_assert_bind; [apply scale_column_no_assert|].
    intros [v' sp']. apply no_assert_bind; auto. intros [r d]. auto.
  - apply no_assert_bind; auto. intros [r d]. auto.
  - apply no_assert_bind; auto. intros [r d]. auto.
Qed.

(** ** remove_outliers *)

Lemma remove_outliers_nth (df : frame) (sigma : Q) (i : nat) :
  nth_error (cols (remove_outliers sqrtQ df sigma)) i =
  match nth_error (cols df) i with
  | Some (f, Num v) => Some (f, Num (remove_outliers_column sqrtQ sigma v))
  | o => o
  end.
Proof.
  unfold remove_outliers. simpl. rewrite nth_error_map.
  destruct (nth_error (cols df) i) as [[f [v|cats v|v]]|]; reflexivity.
Qed.


(** The example of the specification: in the column [1, 2, 3, 4, 100] with
    [sigma = 1], whose mean is 22, only 100 is blanked, whatever the square
    root computes as long as the standard deviation it gives lies between 21
    and 78 (it is 43.6). *)
Lemma remove_outliers_example (s : Q) :
  let v := [Some 1%Q; Some 2%Q; Some 3%Q; Some 4%Q; Some 100%Q] in
  series_std sqrtQ v = Some s -> (21 <= s)%Q -> (s < 78)%Q ->
  remove_outliers sqrtQ (Frame 5 [("x", Num v)]) 1 =
  Frame 5 [("x", Num [Some 1%Q; Some 2%Q; Some 3%Q; Some 4%Q; None])].
Proof.
  intros v Hs Hlo Hhi. subst v.
  cbv [remove_outliers remove_outliers_column cols map snd fst].
  rewrite Hs.
  change (series_mean [Some 1%Q; Some 2%Q; Some 3%Q; Some 4%Q; Some 100%Q])
    with (Some (110 # 5)%Q).
  cbv [nle nabs nsub nmul nlift2 option_map].
  assert (Hle : forall x : Q,
             (Qabs (x - (110 # 5)) <= 21)%Q ->
             Qle_bool (Qabs (x - (110 # 5))) (1 * s) = true).
  { intros x Hx. apply Qle_bool_iff. lra. }
  rewrite !Hle by (vm_compute; discriminate).
  assert (Hgt : Qle_bool (Qabs (100 - (110 # 5))) (1 * s) = false).
  { destruct (Qle_bool (Qabs (100 - (110 # 5))) (1 * s)) eqn:E; auto.
    apply Qle_bool_iff in E. exfalso.
    assert (H78 : (Qabs (100 - (110 # 5)) == 78)%Q) by reflexivity.
    rewrite H78 in E. lra. }
  rewrite Hgt. reflexivity.
Qed.

(** ** The round trip of the method std *)

(** C5. For a numerical column of a table whose standard deviation is defined
    and not zero, fitting [scale] with the method std records the mean and
    the standard deviation of the column for it, turns each value [x] into
    [(x - mean) / std] and leaves the missing cells missing; the inverse
    affine map [x' * std + mean] of a new value gives the original value
    back. *)
Theorem scale_std_round_trip (data : frame) (f : string) (v : list num)
    (mean std : Q) :
  NoDup (names data) ->
  In (f, Num v) (cols data) ->
  series_mean v = Some mean ->
  series_std sqrtQ v = Some std ->
  ~ (std == 0)%Q ->
  exists out scale_param v',
    scale sqrtQ data None "std" = Ok (out, scale_param)
    /\ lookup f scale_param = Some (Some mean, Some std)
    /\ names out = names data
    /\ In (f, Num v') (cols out)
    /\ Forall2 (fun x x' =>
                  match x, x' with
                  | Some x, Some x' =>
                      (x' == (x - mean) / std)%Q /\ (x' * std + mean == x)%Q
                  | None, None => True
                  | _, _ => False
                  end) v v'.
Proof.
  intros Hnd Hin Hm Hs Hnz.
  exists (Frame (shape0 data) (fit_cols sqrtQ "std" (cols data))),
    (fit_params sqrtQ "std" (cols data) []),
    (fst (fit_of sqrtQ "std" v)).
  split; [now apply scale_fit|]. split.
  { rewrite (fit_params_lookup "std" f v) by assumption.
    unfold fit_of. simpl. now rewrite Hm, Hs. }
  split.
  { unfold names, fit_cols. simpl. rewrite map_map. apply map_ext.
    intros [g [w|cats w|w]]; reflexivity. }
  split.
  { unfold fit_cols.
    change (f, Num (fst (fit_of sqrtQ "std" v))) with
      ((fun c : string * column =>
          match snd c with
          | Num v0 => (fst c, Num (fst (fit_of sqrtQ "std" v0)))
          | _ => c
          end) (f, Num v)).
    now apply in_map. }
  unfold fit_of. simpl. rewrite Hm, Hs. apply Forall2_map_r.
  intros [x|] _; simpl; auto.
  destruct (Qeq_bool std 0) eqn:E.
  - apply Qeq_bool_iff in E. contradiction.
  - split; [reflexivity|]. field. exact Hnz.
Qed.

(** ** The target columns *)


End Numerical.

Section Indicators.

Set Default Proof Using "Type".

(** The text of a number. *)
Variable str_of_float : Q -> string.

(** ** replace_by_dummies *)

Lemma dummies_loop_spec (drop_first : bool) (fs : list string) :
  forall cs found,
    NoDup fs ->
    (forall f, In f fs -> In f (map fst cs)) ->
    (forall n, In n (produced_from str_of_float drop_first cs fs) ->
               ~ In n fs) ->
    exists cs',
      dummies_loop str_of_float drop_first fs cs found =
      Ok (cs', found ++ produced_from str_of_float drop_first cs fs)
      /\ forall n,
          In n (map fst cs') <->
          (In n (map fst cs) /\ ~ In n fs)
          \/ In n (produced_from str_of_float drop_first cs fs).
Proof.
  induction fs as [|f fs IH]; intros cs found Hnd Hin Hprod.
  - exists cs. simpl. rewrite app_nil_r. split; [reflexivity|].
    intros n. tauto.
  - inversion Hnd as [|? ? Hf Hnd']; subst.
    destruct (lookup_Some f cs) as [c Hc]; [apply Hin; now left|].
    set (dummy := get_dummies str_of_float c f drop_first).
    assert (Hp : produced_from str_of_float drop_first cs (f :: fs) =
                 map fst dummy
                 ++ produced_from str_of_float drop_first cs fs).
    { unfold produced_from. simpl. now rewrite Hc. }
    assert (Hsame : produced_from str_of_float drop_first
                      (drop f (cs ++ dummy)) fs =
                    produced_from str_of_float drop_first cs fs).
    { unfold produced_from. apply flat_map_ext_In. intros g Hg.
      assert (Hgf : g <> f) by (intros ->; contradiction).
      rewrite lookup_drop_other by assumption.
      destruct (lookup_Some g cs) as [cg Hcg]; [apply Hin; now right|].
      now rewrite (lookup_app_l _ _ _ _ Hcg), Hcg. }
    destruct (IH (drop f (cs ++ dummy)) (found ++ map fst dummy) Hnd')
      as (cs' & Hloop & Hnames).
    { intros g Hg. apply names_drop. split.
      - rewrite map_app. apply in_or_app. left. apply Hin. now right.
      - intros ->. contradiction. }
    { rewrite Hsame. intros n Hn Hn'. apply (Hprod n).
      - rewrite Hp. apply in_or_app. now right.
      - now right. }
    exists cs'. split.
    { rewrite Hp. cbn [dummies_loop]. rewrite Hc. fold dummy.
      rewrite Hloop, Hsame. now rewrite app_assoc. }
    intros n. rewrite Hnames, Hsame, Hp, names_drop, map_app, !in_app_iff.
    simpl. split.
    + intros [[[[H|H] Hnf] Hnfs]|H]; auto.
      left. split; auto. intros [E|E]; [congruence|contradiction].
    + intros [[H Hn]|[H|H]]; auto.
      * left. split; [|tauto]. split; [now left|].
        intros ->. apply Hn. now left.
      * assert (Hn : ~ In n (f :: fs)).
        { apply Hprod. rewrite Hp. apply in_or_app. now left. }
        left. split; [|intros E; apply Hn; now right].
        split; [now right|]. intros ->. apply Hn. now left.
Qed.

Lemma astype_category_idempotent (c : column) :
  astype_category str_of_float (astype_category str_of_float c) =
  astype_category str_of_float c.
Proof.
  destruct c; reflexivity.
Qed.

Lemma categorize_loop_spec (ds : list string) :
  forall cs,
    (forall d, In d ds -> In d (map fst cs)) ->
    exists cs',
      categorize_loop str_of_float ds cs = Ok cs'
      /\ map fst cs' = map fst cs
      /\ forall m c,
          In (m, c) cs' ->
          exists c0,
            In (m, c0) cs
            /\ ((In m ds /\ c = astype_category str_of_float c0)
                \/ (~ In m ds /\ c = c0)).
Proof.
  induction ds as [|d ds IH]; intros cs Hin.
  - exists cs. simpl. split; [reflexivity|]. split; [reflexivity|].
    intros m c H. exists c. auto.
  - set (step := fun c : string * column =>
                   if String.eqb d (fst c)
                   then (fst c, astype_category str_of_float (snd c))
                   else c).
    assert (Hnames : map fst (map step cs) = map fst cs).
    { rewrite map_map. apply map_ext. intros [k c]. unfold step. simpl.
      destruct (String.eqb d k); reflexivity. }
    destruct (IH (map step cs)) as (cs' & Hloop & Hn & Hcols).
    { intros e He. rewrite Hnames. apply Hin. now right. }
    exists cs'. split.
    { simpl. assert (Hd : mem d (map fst cs) = true)
        by (apply mem_In, Hin; now left).
      rewrite Hd. exact Hloop. }
    split; [congruence|].
    intros m c Hc. destruct (Hcols m c Hc) as (c1 & Hc1 & Hcase).
    apply in_map_iff in Hc1 as [[k c0] [Hstep Hc0]]. unfold step in Hstep.
    simpl in Hstep. destruct (String.eqb d k) eqn:E.
    + apply String.eqb_eq in E. subst k. injection Hstep as <- <-.
      exists c0. split; auto. left. split; [now left|].
      destruct Hcase as [[_ ->]|[_ ->]]; auto.
      apply astype_category_idempotent.
    + apply String.eqb_neq in E. injection Hstep as -> ->.
      exists c1. split; auto.
      destruct Hcase as [[Hm ->]|[Hm ->]]; [left|right]; split; auto.
      * now right.
      * intros [H|H]; [congruence|contradiction].
Qed.

(** C2. In the replay of [replace_by_dummies] with a vocabulary that is not
    empty, on a table whose columns have distinct names that no produced
    indicator column takes: the call returns and hands the vocabulary back;
    the columns of the table it returns are the vocabulary and the columns
    of the input that were not expanded, so the indicator columns are
    exactly the vocabulary; an indicator column produced from the input that
    is not in the vocabulary is not in the output; and a column of the
    vocabulary that was not produced from the input holds 0 in every row. *)
Theorem replace_by_dummies_apply_vocabulary (data : frame)
    (target : list string) (d : string) (ds : list string)
    (drop_first : bool) :
  NoDup (names data) ->
  (forall n, In n (produced_dummies str_of_float data target drop_first) ->
             ~ In n (names data)) ->
  let dummies := d :: ds in
  let found := produced_dummies str_of_float data target drop_first in
  exists out,
    replace_by_dummies str_of_float data target (Some dummies) drop_first
    = Ok (out, dummies)
    /\ shape0 out = shape0 data
    /\ (forall n,
          In n (names out) <->
          In n dummies
          \/ (In n (names data) /\ ~ In n (categorical_f data target)))
    /\ (forall n, In n found -> ~ In n dummies -> ~ In n (names out))
    /\ (forall m c,
          In m dummies -> ~ In m found -> In (m, c) (cols out) ->
          c = astype_category str_of_float (zeros (shape0 data))).
Proof.
  intros Hnd Hcol dummies found.
  destruct (dummies_loop_spec drop_first (categorical_f data target)
              (cols data) []) as (cs1 & Hloop & Hn1).
  { now apply NoDup_categorical_f. }
  { intros f Hf. now apply categorical_f_in_names in Hf. }
  { intros n Hn Hn'. apply (Hcol n Hn).
    now apply categorical_f_in_names in Hn'. }
  rewrite app_nil_l in Hloop. fold (names data) in Hn1.
  fold (produced_dummies str_of_float data target drop_first) in Hloop, Hn1.
  fold found in Hloop, Hn1.
  set (new := filter (fun n => negb (mem n dummies))
                (unique String.eqb found)).
  set (cs2 := fold_left (fun cs n => drop n cs) new cs1).
  set (missing := filter (fun m => negb (mem m found))
                    (unique String.eqb dummies)).
  set (cs3 := fold_left (fun cs m => assign_zero (shape0 data) m cs)
                missing cs2).
  assert (Hnew : forall n, In n new <-> In n found /\ ~ In n dummies).
  { intros n. unfold new.
    now rewrite filter_In, In_unique, negb_true_iff, mem_false. }
  assert (Hmissing : forall n, In n missing <-> In n dummies /\ ~ In n found).
  { intros n. unfold missing.
    now rewrite filter_In, In_unique, negb_true_iff, mem_false. }
  assert (Hn3 : forall n,
             In n (map fst cs3) <->
             In n dummies
             \/ (In n (names data) /\ ~ In n (categorical_f data target))).
  { intros n. unfold cs3, cs2.
    rewrite names_fold_assign, names_fold_drop, Hn1, Hnew, Hmissing.
    destruct (mem n dummies) eqn:Ed; [apply mem_In in Ed|apply mem_false in Ed];
      destruct (mem n found) eqn:Ef;
      [apply mem_In in Ef|apply mem_false in Ef
      |apply mem_In in Ef|apply mem_false in Ef]; try tauto.
    split; [tauto|]. intros [H|[H1 H2]]; [contradiction|].
    exfalso. now apply (Hcol n). }
  destruct (categorize_loop_spec dummies cs3) as (cs4 & Hcat & Hn4 & Hcols4).
  { intros e He. apply Hn3. now left. }
  exists (Frame (shape0 data) cs4). split.
  { unfold replace_by_dummies. rewrite Hloop.
    unfold dummies. cbn [bind truthy negb]. cbv zeta.
    fold dummies. fold new. fold cs2. fold missing. fold cs3.
    cbn [bind].
    rewrite Hcat. reflexivity. }
  split; [reflexivity|]. split.
  { intros n. unfold names. simpl. rewrite Hn4. apply Hn3. }
  split.
  { intros n Hf Hd Hout. unfold names in Hout. simpl in Hout.
    rewrite Hn4 in Hout. apply Hn3 in Hout as [H|[H _]]; [contradiction|].
    now apply (Hcol n). }
  intros m c Hd Hf Hin. simpl in Hin.
  destruct (Hcols4 m c Hin) as (c0 & Hc0 & [[_ ->]|[Hnot _]]);
    [|contradiction].
  f_equal. apply (fold_assign_zeros (shape0 data) m missing) with (cs := cs2).
  - apply Hmissing. auto.
  - exact Hc0.
Qed.

End Indicators.

Section Interface.

Set Default Proof Using "Type".

Variable sqrtQ : Q -> Q.
Variable str_of_float : Q -> string.
Variable float_of_str : string -> option Q.

(** ** The assertions of classify_data and scale *)

Lemma floats_of_cells_no_assert (v : list cell) :
  no_assert (floats_of_cells float_of_str v).
Proof.
  induction v as [|[s|] v IH]; simpl; auto.
  - destruct (float_of_str s); [|discriminate].
    apply no_assert_bind; auto.
  - apply no_assert_bind; auto.
Qed.

Lemma astype_float32_no_assert (c : column) :
  no_assert (astype_float32 float_of_str c).
Proof.
  destruct c; simpl; auto; apply no_assert_bind; auto;
    apply floats_of_cells_no_assert.
Qed.

(** C8. [classify_data] stops on its assertion, and returns no table, exactly
    when neither the numerical nor the categorical list is supplied, a list
    being supplied when it is given and not empty (the truth value of Python
    that the assertion tests); [scale] stops on its assertion exactly when
    [method] is none of std, minmax and maxabs.  The result of a call that
    stops is the error alone: no table is transformed. *)
Theorem configuration_errors :
  (forall df target numerical categorical,
      classify_data str_of_float float_of_str df target numerical categorical
      = Raise AssertionError
      <-> truthy numerical = false /\ truthy categorical = false)
  /\ (forall data scale_param method,
        scale sqrtQ data scale_param method = Raise AssertionError
        <-> method <> "std" /\ method <> "minmax" /\ method <> "maxabs").
Proof.
  split.
  - intros df target numerical categorical. unfold classify_data.
    destruct (truthy numerical || truthy categorical) eqn:E; simpl.
    + split.
      * intros H. exfalso. revert H.
        apply no_assert_bind; [apply select_no_assert|]. intros d1.
        apply no_assert_bind;
          [apply cast_columns_no_assert, astype_float32_no_assert|].
        intros d2. apply no_assert_bind; auto.
        apply cast_columns_no_assert. auto.
      * intros [H1 H2]. rewrite H1, H2 in E. discriminate.
    + apply orb_false_iff in E. tauto.
  - intros data scale_param method. unfold scale.
    destruct (valid_method method) eqn:E; simpl.
    + split.
      * intros H. exfalso. revert H.
        apply no_assert_bind; [apply scale_loop_no_assert|].
        intros [d sp]. auto.
      * intros (H1 & H2 & H3).
        apply valid_method_cases in E as [E|[E|E]]; contradiction.
    + split; auto. intros _. unfold valid_method in E.
      apply orb_false_iff in E as [E E3].
      apply orb_false_iff in E as [E1 E2].
      apply String.eqb_neq in E1, E2, E3. auto.
Qed.

(** ** The empty parameter object *)

(** C10. An empty parameter object is a parameter object that is not
    supplied: [scale] with an empty [scale_param], [replace_by_dummies] with
    an empty list of dummies and [remove_categories] with an empty
    [dict_categories] are the calls without the parameter.  They take the
    fit branch: [scale] returns the statistics of the columns of the table
    it is given, [replace_by_dummies] the names of the indicator columns it
    found in it and [remove_categories] the categories it kept in it. *)
Theorem empty_parameter_is_fit :
  (forall data method,
      scale sqrtQ data (Some []) method = scale sqrtQ data None method)
  /\ (forall data method,
        scale sqrtQ data (Some []) method =
        if valid_method method then
          Ok (Frame (shape0 data) (fit_cols sqrtQ method (cols data)),
              fit_params sqrtQ method (cols data) [])
        else Raise AssertionError)
  /\ (forall data target drop_first,
        replace_by_dummies str_of_float data target (Some []) drop_first =
        replace_by_dummies str_of_float data target None drop_first)
  /\ (forall data target drop_first,
        replace_by_dummies str_of_float data target (Some []) drop_first =
        '(cs, found_dummies) <-
          dummies_loop str_of_float drop_first (categorical_f data target)
            (cols data) [] ;;
        cs <- categorize_loop str_of_float found_dummies cs ;;
        Ok (Frame (shape0 data) cs, found_dummies))
  /\ (forall df target ratio,
        remove_categories df target ratio (Some []) =
        remove_categories df target ratio None)
  /\ (forall df target ratio,
        remove_categories df target ratio (Some []) =
        let threshold := (inject_Z (Z.of_nat (shape0 df)) * ratio)%Q in
        let data := cols (force_categorical df) in
        Ok (Frame (shape0 df) (level_cols threshold (target_list target) data),
            level_vocabulary threshold (target_list target) data [])).
Proof.
  split; [reflexivity|]. split.
  { intros data method. destruct (valid_method method) eqn:E.
    - now apply scale_fit.
    - unfold scale. now rewrite E. }
  split; [reflexivity|]. split.
  { intros data target drop_first. unfold replace_by_dummies, bind.
    destruct (dummies_loop str_of_float drop_first
                (categorical_f data target) (cols data) [])
      as [[cs found]|e]; reflexivity. }
  split; [reflexivity|].
  intros df target ratio. unfold remove_categories. simpl.
  rewrite remove_categories_loop_fit. reflexivity.
Qed.

(** ** The vocabulary of the indicator columns, fitted and replayed *)

(** The example of the specification: the vocabulary fitted on the categories
    A and B, replayed on a table that holds A and C, gives the columns of A
    and B, the column of B holding 0 in every row, and no column of C. *)
Lemma replace_by_dummies_example :
  let fit := Frame 2 [("c", Obj [Some "A"; Some "B"])] in
  let new := Frame 2 [("c", Obj [Some "A"; Some "C"])] in
  (forall df,
      classify_data str_of_float float_of_str fit [] None (Some ["c"])
      = Ok df ->
      replace_by_dummies str_of_float df [] None false =
      Ok (Frame 2 [("c_A", astype_category str_of_float
                             (Num [Some 1%Q; Some 0%Q]));
                   ("c_B", astype_category str_of_float
                             (Num [Some 0%Q; Some 1%Q]))],
          ["c_A"; "c_B"]))
  /\ (forall df,
        classify_data str_of_float float_of_str new [] None (Some ["c"])
        = Ok df ->
        replace_by_dummies str_of_float df [] (Some ["c_A"; "c_B"]) false =
        Ok (Frame 2 [("c_A", astype_category str_of_float
                               (Num [Some 1%Q; Some 0%Q]));
                     ("c_B", astype_category str_of_float
                               (Num [Some 0%Q; Some 0%Q]))],
            ["c_A"; "c_B"])).
Proof.
  split; intros df H; injection H as <-; reflexivity.
Qed.

End Interface.



(** * The properties on concrete tables *)

(** C2 on the table of the categories A and C, replayed with the vocabulary
    of the categories A and B. *)
Lemma replace_by_dummies_apply_vocabulary_witness :
  NoDup (names table_AC)
  /\ (forall n,
        In n (produced_dummies str_indicator table_AC [] false) ->
        ~ In n (names table_AC))
  /\ exists out,
      replace_by_dummies str_indicator table_AC [] (Some ["c_A"; "c_B"]) false
      = Ok (out, ["c_A"; "c_B"])
      /\ (forall n,
            In n (names out) <->
            In n ["c_A"; "c_B"]
            \/ (In n (names table_AC) /\ ~ In n (categorical_f table_AC []))).
Proof.
  assert (Hnd : NoDup (names table_AC)) by distinct_names.
  assert (Hcol : forall n,
             In n (produced_dummies str_indicator table_AC [] false) ->
             ~ In n (names table_AC)).
  { intros n Hn. vm_compute in Hn. destruct Hn as [<-|[<-|[]]];
      simpl; intuition discriminate. }
  split; [exact Hnd|]. split; [exact Hcol|].
  destruct (replace_by_dummies_apply_vocabulary str_indicator table_AC []
              "c_A" ["c_B"] false Hnd Hcol) as (out & H1 & _ & H3 & _).
  exists out. split; assumption.
Defined.


(** C4 on a table restricted to the vocabulary a, b of its column [c]. *)
Lemma remove_categories_replay_idempotent_witness :
  restricted_to [("c", ["a"; "b"]); ("t", ["u"; "w"])] [] table_mixed = true
  /\ exists out,
      remove_categories table_mixed None 0.5
        (Some [("c", ["a"; "b"]); ("t", ["u"; "w"])])
      = Ok (out, [("c", ["a"; "b"]); ("t", ["u"; "w"])])
      /\ frame_values (cols out) = frame_values (cols table_mixed).
Proof.
  split; [reflexivity|].
  destruct (remove_categories_replay_idempotent table_mixed None 0.5
              [("c", ["a"; "b"]); ("t", ["u"; "w"])])
    as (out & H1 & _ & H3 & _).
  - reflexivity.
  - exists out. split; assumption.
Defined.

(** C5 on the column [1, NaN, 3, 5], whose mean is 3 and whose standard
    deviation is 2. *)
Lemma scale_std_round_trip_witness :
  exists out scale_param v',
    scale sqrt_approx table_missing None "std" = Ok (out, scale_param)
    /\ lookup "x" scale_param = Some (Some (9 # 3)%Q, Some 2.000000%Q)
    /\ In ("x", Num v') (cols out).
Proof.
  destruct (scale_std_round_trip sqrt_approx table_missing "x"
              [Some 1%Q; None; Some 3%Q; Some 5%Q] (9 # 3)%Q 2.000000%Q)
    as (out & sp & v' & H1 & H2 & _ & H4 & _).
  - distinct_names.
  - left. reflexivity.
  - reflexivity.
  - reflexivity.
  - intros H. vm_compute in H. discriminate H.
  - exists out, sp, v'. repeat split; assumption.
Defined.





(** C9: in a column where b and a tie and b is met first, the missing cell
    is filled with a, the first of the two in the sorted order, and not with
    b, the mode by first occurrence. *)
Lemma fill_simple_mode_tie_sorted_order :
  fill_simple table_tie [] "median" "mode" true true =
  Ok (Frame 3 [("c", Cat ["a"; "b"] [Some "b"; Some "a"; Some "a"]);
               ("o", Obj [Some "b"; Some "a"; Some "a"])])
  /\ mode_by_first_occurrence cells_tie = Some "b"
  /\ count_label "a" cells_tie = count_label "b" cells_tie.
Proof.
  repeat split; reflexivity.
Qed.

(** C9, amended, on the same column. *)
Lemma fill_simple_mode_choice_witness :
  exists out c',
    fill_simple table_tie [] "median" "mode" true true = Ok out
    /\ nth_error (cols out) 0 = Some ("c", c')
    /\ column_values c' = inr [Some "b"; Some "a"; Some "a"].
Proof.
  destruct (fill_simple_mode_choice table_tie [] "median" true 0 "c"
              (Cat ["a"; "b"] cells_tie) "a")
    as (out & c' & H1 & H2 & H3 & _).
  - reflexivity.
  - reflexivity.
  - simpl. tauto.
  - reflexivity.
  - exists out, c'. repeat split; assumption.
Defined.

(** * Further properties of the numerical transforms *)

(** ** Sums, minima and maxima *)

Lemma Qmin2_le_l (a b : Q) : (Qmin2 a b <= a)%Q.
Proof.
  unfold Qmin2. destruct (Qle_bool a b) eqn:E; [apply Qle_refl|].
  apply Qlt_le_weak, Qnot_le_lt. intros H. apply Qle_bool_iff in H.
  congruence.
Qed.

Lemma Qmin2_le_r (a b : Q) : (Qmin2 a b <= b)%Q.
Proof.
  unfold Qmin2. destruct (Qle_bool a b) eqn:E; [|apply Qle_refl].
  now apply Qle_bool_iff.
Qed.

Lemma Qmax2_ge_l (a b : Q) : (a <= Qmax2 a b)%Q.
Proof.
  unfold Qmax2. destruct (Qle_bool a b) eqn:E; [|apply Qle_refl].
  now apply Qle_bool_iff.
Qed.

Lemma Qmax2_ge_r (a b : Q) : (b <= Qmax2 a b)%Q.
Proof.
  unfold Qmax2. destruct (Qle_bool a b) eqn:E; [apply Qle_refl|].
  apply Qlt_le_weak, Qnot_le_lt. intros H. apply Qle_bool_iff in H.
  congruence.
Qed.

Lemma fold_min_le (xs : list Q) :
  forall a y, In y (a :: xs) -> (fold_left Qmin2 xs a <= y)%Q.
Proof.
  induction xs as [|x xs IH]; intros a y Hy; simpl.
  - destruct Hy as [<-|[]]. apply Qle_refl.
  - destruct Hy as [<-|[<-|Hy]].
    + eapply Qle_trans; [apply IH; now left|apply Qmin2_le_l].
    + eapply Qle_trans; [apply IH; now left|apply Qmin2_le_r].
    + apply IH. now right.
Qed.

Lemma fold_max_le (xs : list Q) :
  forall a y, In y (a :: xs) -> (y <= fold_left Qmax2 xs a)%Q.
Proof.
  induction xs as [|x xs IH]; intros a y Hy; simpl.
  - destruct Hy as [<-|[]]. apply Qle_refl.
  - destruct Hy as [<-|[<-|Hy]].
    + eapply Qle_trans; [apply Qmax2_ge_l|apply IH; now left].
    + eapply Qle_trans; [apply Qmax2_ge_r|apply IH; now left].
    + apply IH. now right.
Qed.

Lemma series_min_le (v : list num) (lo x : Q) :
  series_min v = Some lo -> In (Some x) v -> (lo <= x)%Q.
Proof.
  unfold series_min. intros H Hx. apply In_dropna in Hx.
  destruct (dropna v) as [|a xs]; [discriminate|]. injection H as <-.
  now apply fold_min_le.
Qed.

Lemma series_max_ge (v : list num) (hi x : Q) :
  series_max v = Some hi -> In (Some x) v -> (x <= hi)%Q.
Proof.
  unfold series_max. intros H Hx. apply In_dropna in Hx.
  destruct (dropna v) as [|a xs]; [discriminate|]. injection H as <-.
  now apply fold_max_le.
Qed.

Lemma series_min_le_max (v : list num) (lo hi : Q) :
  series_min v = Some lo -> series_max v = Some hi -> (lo <= hi)%Q.
Proof.
  intros Hlo Hhi.
  assert (Hx : exists x, In (Some x) v).
  { unfold series_min in Hlo. destruct (dropna v) as [|a xs] eqn:E;
      [discriminate|]. exists a. apply In_dropna. rewrite E. now left. }
  destruct Hx as [x Hx].
  eapply Qle_trans; [eapply series_min_le|eapply series_max_ge]; eauto.
Qed.

Lemma Qsize_cons (x : Q) (xs : list Q) :
  (Qsize (x :: xs) == 1 + Qsize xs)%Q.
Proof.
  unfold Qsize. cbn [List.length]. rewrite Nat2Z.inj_succ.
  unfold Z.succ. rewrite inject_Z_plus. ring.
Qed.

Lemma Qsize_pos (x : Q) (xs : list Q) : (0 < Qsize (x :: xs))%Q.
Proof.
  unfold Qsize, Qlt. cbn [List.length]. simpl. lia.
Qed.

Lemma Qsum_centered (m s : Q) (xs : list Q) :
  ~ (s == 0)%Q ->
  (Qsum (map (fun x => (x - m) / s) xs) == (Qsum xs - Qsize xs * m) / s)%Q.
Proof.
  intros Hs. induction xs as [|x xs IH].
  - simpl. unfold Qsize. simpl. field. exact Hs.
  - cbn [map Qsum fold_right]. fold (Qsum (map (fun x => (x - m) / s) xs)).
    fold (Qsum xs). rewrite IH, Qsize_cons. field. exact Hs.
Qed.

Lemma dropna_map {A B} (g : A -> B) (v : list (option A)) :
  dropna (map (option_map g) v) = map g (dropna v).
Proof.
  induction v as [|[a|] v IH]; simpl; congruence.
Qed.

Lemma Forall2_same {A} (R : A -> A -> Prop) (l : list A) :
  (forall x, R x x) -> Forall2 R l l.
Proof.
  intros H. induction l; constructor; auto.
Qed.

Lemma bind_Raise {A B} (r : result A) (k : A -> result B) (e : error) :
  bind r k = Raise e ->
  r = Raise e \/ exists a, r = Ok a /\ k a = Raise e.
Proof.
  destruct r as [a|e']; simpl; intros H.
  - right. now exists a.
  - left. now injection H as ->.
Qed.

Lemma keys_update {V} (k k' : string) (v : V) (d : dict V) :
  In k' (map fst (update k v d)) <-> k' = k \/ In k' (map fst d).
Proof.
  induction d as [|[k2 v2] d IH]; simpl.
  - split; [intros [H|[]]; auto|intros [H|[]]; auto].
  - destruct (String.eqb k k2) eqn:E; simpl.
    + apply String.eqb_eq in E. subst k2. split.
      * intros [H|H]; auto.
      * intros [H|[H|H]]; auto.
    + rewrite IH. split.
      * intros [H|[H|H]]; auto.
      * intros [H|[H|H]]; auto.
Qed.

Section MoreNumerical.

Set Default Proof Using "Type".

(** The square root of the numeric library. *)
Variable sqrtQ : Q -> Q.

(** ** What scale keeps *)

Lemma scale_column_shape (method : string) (create_scale : bool)
    (sp sp' : scale_param_t) (f : string) (v v' : list num) :
  scale_column sqrtQ method create_scale sp f v = Ok (v', sp') ->
  Forall2 (fun x x' : num => x = None -> x' = None) v v'
  /\ (create_scale = false -> sp' = sp).
Proof.
  unfold scale_column. intros H.
  repeat match type of H with
         | (if ?b then _ else _) = _ => destruct b
         | match lookup ?k ?d with _ => _ end = _ =>
             destruct (lookup k d); [|discriminate]
         end;
    injection H as <- <-;
    (split; [|intros E; try reflexivity; discriminate E]);
    try (apply Forall2_map_r; intros [x|] _ Hx;
         [discriminate Hx|reflexivity]).
  now apply Forall2_same.
Qed.

Lemma scale_loop_frame (method : string) (create_scale : bool)
    (data : list (string * column)) :
  forall sp data' sp',
    scale_loop sqrtQ method create_scale data sp = Ok (data', sp') ->
    Forall2 scaled_column data data'
    /\ (create_scale = false -> sp' = sp).
Proof.
  induction data as [|[f c] rest IH]; intros sp data' sp' H; simpl in H.
  - injection H as <- <-. split; [constructor|reflexivity].
  - destruct c as [v|cats v|v].
    + apply bind_Ok in H as ([v1 sp1] & Hcol & H).
      apply bind_Ok in H as ([rest' sp2] & Hrest & H).
      injection H as <- <-.
      destruct (scale_column_shape _ _ _ _ _ _ _ Hcol) as [Hv Hsp].
      destruct (IH _ _ _ Hrest) as [Hr Hsp2]. split.
      * constructor; [|exact Hr]. split; [reflexivity|]. simpl.
        now exists v1.
      * intros E. rewrite (Hsp2 E). now apply Hsp.
    + apply bind_Ok in H as ([rest' sp2] & Hrest & H).
      injection H as <- <-. destruct (IH _ _ _ Hrest) as [Hr Hsp2].
      split; [|exact Hsp2]. constructor; [|exact Hr]. now split.
    + apply bind_Ok in H as ([rest' sp2] & Hrest & H).
      injection H as <- <-. destruct (IH _ _ _ Hrest) as [Hr Hsp2].
      split; [|exact Hsp2]. constructor; [|exact Hr]. now split.
Qed.

(** X1. When [scale] returns, in the fit mode and in the replay mode and for
    each method, the table has its number of rows and its columns in their
    order under their names, a column that is not numerical is as it was, a
    numerical column has its cells one for one and its missing cells are
    still missing; and in the replay mode the statistics it returns are the
    ones it was given. *)
Theorem scale_frame (data : frame) (scale_param : option scale_param_t)
    (method : string) (out : frame) (p : scale_param_t) :
  scale sqrtQ data scale_param method = Ok (out, p) ->
  shape0 out = shape0 data
  /\ Forall2 scaled_column (cols data) (cols out)
  /\ (truthy scale_param = true -> scale_param = Some p).
Proof.
  unfold scale. destruct (valid_method method); [|discriminate]. simpl.
  intros H. apply bind_Ok in H as ([data' sp] & Hloop & H).
  injection H as <- <-. apply scale_loop_frame in Hloop as [Hcols Hsp].
  split; [reflexivity|]. split; [exact Hcols|].
  intros Ht. rewrite Ht in Hsp. rewrite Hsp by reflexivity.
  destruct scale_param as [[|kv d]|]; try discriminate. reflexivity.
Qed.

(** ** The statistics that the fit records *)

Lemma fit_params_keys (method : string) (data : list (string * column)) :
  forall sp f,
    In f (map fst (fit_params sqrtQ method data sp)) <->
    In f (map fst sp) \/ exists v, In (f, Num v) data.
Proof.
  induction data as [|[g c] rest IH]; intros sp f; simpl.
  - split; [auto|]. intros [H|[v []]]. exact H.
  - destruct c as [v|cats v|v]; rewrite IH.
    + rewrite keys_update. split.
      * intros [[->|H]|[w H]]; eauto.
      * intros [H|[w [H|H]]]; eauto. injection H as -> _. auto.
    + split.
      * intros [H|[w H]]; eauto.
      * intros [H|[w [H|H]]]; eauto. discriminate H.
    + split.
      * intros [H|[w H]]; eauto.
      * intros [H|[w [H|H]]]; eauto. discriminate H.
Qed.

(** X2. In the fit mode [scale] records statistics for the numerical columns
    of the table and for no other column: the keys of the mapping it returns
    are the names of the numerical columns. *)
Theorem scale_fit_keys (data : frame) (method : string) :
  valid_method method = true ->
  exists out p,
    scale sqrtQ data None method = Ok (out, p)
    /\ forall f, In f (map fst p) <-> exists v, In (f, Num v) (cols data).
Proof.
  intros Hm. eexists. eexists. split; [now apply scale_fit|].
  intros f. rewrite fit_params_keys. simpl. tauto.
Qed.

(** ** The replay with a key that is missing *)

Lemma scale_column_replay_of (method : string) (sp : scale_param_t)
    (f : string) (v : list num) (p : num * num) :
  valid_method method = true ->
  lookup f sp = Some p ->
  scale_column sqrtQ method false sp f v = Ok (replay_of method p v, sp).
Proof.
  intros Hm Hp. apply valid_method_cases in Hm as [->| [->| ->]];
    unfold scale_column, replay_of; simpl; rewrite Hp; reflexivity.
Qed.

Lemma scale_loop_apply (method : string) (sp : scale_param_t)
    (data : list (string * column)) :
  valid_method method = true ->
  (forall f v, In (f, Num v) data -> lookup f sp <> None) ->
  scale_loop sqrtQ method false data sp = Ok (replay_cols method sp data, sp).
Proof.
  intros Hm. induction data as [|[f c] rest IH]; intros Hp; simpl.
  - reflexivity.
  - assert (Hrest : scale_loop sqrtQ method false rest sp =
                    Ok (replay_cols method sp rest, sp)).
    { apply IH. intros g w Hg. apply (Hp g w). now right. }
    destruct c as [v|cats v|v]; simpl; [|now rewrite Hrest..].
    destruct (lookup f sp) as [p|] eqn:E.
    + rewrite (scale_column_replay_of method sp f v p Hm E). simpl.
      now rewrite Hrest.
    + exfalso. apply (Hp f v); [now left|exact E].
Qed.

Lemma scale_column_raise (method : string) (sp : scale_param_t)
    (f : string) (v : list num) (e : error) :
  scale_column sqrtQ method false sp f v = Raise e ->
  e = KeyError f /\ lookup f sp = None.
Proof.
  unfold scale_column. intros H.
  repeat match type of H with
         | (if ?b then _ else _) = _ => destruct b
         | match lookup ?k ?d with _ => _ end = _ =>
             destruct (lookup k d); [discriminate|]
         end; try discriminate; injection H as <-; auto.
Qed.

Lemma scale_loop_raise (method : string) (sp : scale_param_t)
    (data : list (string * column)) (e : error) :
  scale_loop sqrtQ method false data sp = Raise e ->
  exists f v, e = KeyError f /\ In (f, Num v) data /\ lookup f sp = None.
Proof.
  induction data as [|[f c] rest IH]; simpl; intros H; [discriminate|].
  assert (Hrest : forall sp' (k : list (string * column) * scale_param_t ->
                                  result (list (string * column)
                                          * scale_param_t)),
             sp' = sp ->
             (forall a, k a <> Raise e) ->
             bind (scale_loop sqrtQ method false rest sp') k = Raise e ->
             exists g w,
               e = KeyError g /\ In (g, Num w) ((f, c) :: rest)
               /\ lookup g sp = None).
  { intros sp' k -> Hk Hb. apply bind_Raise in Hb as [Hb|[a [_ Hb]]].
    - destruct (IH Hb) as (g & w & He & Hin & Hl). exists g, w.
      split; [exact He|]. split; [now right|exact Hl].
    - now apply Hk in Hb. }
  destruct c as [v|cats v|v].
  - apply bind_Raise in H as [H|[[v1 sp1] [Hcol H]]].
    + apply scale_column_raise in H as [-> Hl]. exists f, v.
      split; [reflexivity|]. split; [now left|exact Hl].
    + apply scale_column_shape in Hcol as [_ Hsp].
      apply (Hrest sp1 _ (Hsp eq_refl)) in H; auto.
      intros [r d]. discriminate.
  - apply (Hrest sp _ eq_refl) in H; auto. intros [r d]. discriminate.
  - apply (Hrest sp _ eq_refl) in H; auto. intros [r d]. discriminate.
Qed.

Lemma scale_loop_missing (method : string) (sp : scale_param_t)
    (data : list (string * column)) :
  valid_method method = true ->
  (exists f v, In (f, Num v) data /\ lookup f sp = None) ->
  exists f v,
    scale_loop sqrtQ method false data sp = Raise (KeyError f)
    /\ In (f, Num v) data /\ lookup f sp = None.
Proof.
  intros Hm. induction data as [|[g c] rest IH]; intros (f & v & Hin & Hl).
  - destruct Hin.
  - assert (Hrest : In (f, Num v) rest ->
              exists f' v',
                scale_loop sqrtQ method false rest sp = Raise (KeyError f')
                /\ In (f', Num v') ((g, c) :: rest) /\ lookup f' sp = None).
    { intros H. destruct IH as (f' & v' & Hr & Hin' & Hl'); [eauto|].
      exists f', v'. split; [exact Hr|]. split; [now right|exact Hl']. }
    destruct c as [w|cats w|w]; simpl.
    + destruct (lookup g sp) as [p|] eqn:E.
      * destruct Hin as [Hin|Hin]; [injection Hin as -> _; congruence|].
        destruct (Hrest Hin) as (f' & v' & Hr & Hin' & Hl').
        exists f', v'. split; [|auto].
        rewrite (scale_column_replay_of method sp g w p Hm E). simpl.
        now rewrite Hr.
      * exists g, w. split; [|split; [now left|exact E]].
        apply valid_method_cases in Hm as [->| [->| ->]];
          unfold scale_column; simpl; rewrite E; reflexivity.
    + destruct Hin as [Hin|Hin]; [discriminate Hin|].
      destruct (Hrest Hin) as (f' & v' & Hr & Hin' & Hl').
      exists f', v'. split; [|auto]. now rewrite Hr.
    + destruct Hin as [Hin|Hin]; [discriminate Hin|].
      destruct (Hrest Hin) as (f' & v' & Hr & Hin' & Hl').
      exists f', v'. split; [|auto]. now rewrite Hr.
Qed.

(** X3. The replay of [scale] with recorded statistics [sp] (a mapping that
    is not empty) and a valid method returns when [sp] has an entry for
    every numerical column of the table: it returns [sp] and the columns
    transformed with their entries.  When a numerical column has no entry
    the call raises the KeyError of such a column, and it raises no other
    error. *)
Theorem scale_replay_keys (data : frame) (kv : string * (num * num))
    (p : scale_param_t) (method : string) :
  valid_method method = true ->
  let sp := kv :: p in
  ((forall f v, In (f, Num v) (cols data) -> lookup f sp <> None) ->
   scale sqrtQ data (Some sp) method =
   Ok (Frame (shape0 data) (replay_cols method sp (cols data)), sp))
  /\ ((exists f v, In (f, Num v) (cols data) /\ lookup f sp = None) ->
      exists f v,
        scale sqrtQ data (Some sp) method = Raise (KeyError f)
        /\ In (f, Num v) (cols data) /\ lookup f sp = None)
  /\ (forall e,
        scale sqrtQ data (Some sp) method = Raise e ->
        exists f v,
          e = KeyError f /\ In (f, Num v) (cols data) /\ lookup f sp = None).
Proof.
  intros Hm sp. subst sp. unfold scale. rewrite Hm. cbn [negb truthy].
  split; [|split].
  - intros Hp. rewrite scale_loop_apply by assumption. reflexivity.
  - intros Hmiss.
    destruct (scale_loop_missing method (kv :: p) (cols data) Hm Hmiss)
      as (f & v & Hr & Hin & Hl).
    exists f, v. rewrite Hr. auto.
  - intros e H. apply bind_Raise in H as [H|[[d s] [_ H]]];
      [|discriminate]. now apply scale_loop_raise in H.
Qed.

End MoreNumerical.

Section ScaledValues.

Set Default Proof Using "Type".

(** The square root of the numeric library. *)
Variable sqrtQ : Q -> Q.

(** ** The values of a fitted column *)

Lemma range_not_zero (lo hi : Q) :
  ~ (lo == hi)%Q -> Qeq_bool (hi - lo) 0 = false.
Proof.
  intros H. destruct (Qeq_bool (hi - lo) 0) eqn:E; [|reflexivity].
  apply Qeq_bool_iff in E. exfalso. apply H. lra.
Qed.

Lemma fit_cols_nth (method : string) (data : list (string * column))
    (i : nat) (f : string) (v : list num) :
  nth_error data i = Some (f, Num v) ->
  nth_error (fit_cols sqrtQ method data) i =
  Some (f, Num (fst (fit_of sqrtQ method v))).
Proof.
  intros H. unfold fit_cols. now rewrite nth_error_map, H.
Qed.

(** X4. [standardize] (the method std of [scale]) in the fit mode centres a
    numerical column: when the standard deviation of the column is defined
    and not zero, the mean of the column it returns is 0. *)
Theorem standardize_mean_zero (data : frame) (i : nat) (f : string)
    (v : list num) (mean std : Q) :
  nth_error (cols data) i = Some (f, Num v) ->
  series_mean v = Some mean ->
  series_std sqrtQ v = Some std ->
  ~ (std == 0)%Q ->
  exists out p v' m',
    standardize sqrtQ data None = Ok (out, p)
    /\ nth_error (cols out) i = Some (f, Num v')
    /\ series_mean v' = Some m'
    /\ (m' == 0)%Q.
Proof.
  intros Hi Hm Hs Hnz.
  set (g := fun q : Q => ((q - mean) / std)%Q).
  assert (Hv : fst (fit_of sqrtQ "std" v) = map (option_map g) v).
  { unfold fit_of. simpl. rewrite Hm, Hs. apply map_ext. intros [x|].
    - cbv [nsub ndiv nlift2 option_map].
      destruct (Qeq_bool std 0) eqn:E; [|reflexivity].
      apply Qeq_bool_iff in E. contradiction.
    - reflexivity. }
  unfold series_mean in Hm.
  destruct (dropna v) as [|x0 xs] eqn:Ed; [discriminate|].
  injection Hm as Hm.
  exists (Frame (shape0 data) (fit_cols sqrtQ "std" (cols data))),
    (fit_params sqrtQ "std" (cols data) []),
    (map (option_map g) v),
    (Qsum (map g (x0 :: xs)) / Qsize (map g (x0 :: xs)))%Q.
  split; [unfold standardize; now apply scale_fit|]. split.
  { simpl. rewrite (fit_cols_nth "std" _ i f v Hi). now rewrite Hv. }
  split.
  { unfold series_mean. rewrite dropna_map, Ed. reflexivity. }
  assert (Hsize : Qsize (map g (x0 :: xs)) = Qsize (x0 :: xs))
    by (unfold Qsize; now rewrite length_map).
  rewrite Hsize. unfold g. rewrite Qsum_centered by assumption.
  rewrite <- Hm.
  assert (Hn : ~ (Qsize (x0 :: xs) == 0)%Q).
  { intros H. pose proof (Qsize_pos x0 xs) as Hp. rewrite H in Hp.
    now apply Qlt_irrefl in Hp. }
  change (Qsum (x0 :: xs)) with (x0 + Qsum xs)%Q.
  field. split; assumption.
Qed.

(** X5. The method minmax of [scale] in the fit mode maps a numerical column
    that holds two different values into the interval from 0 to 1: each
    value [x] becomes [(x - min) / (max - min)], which lies between 0 and 1,
    and a missing cell stays missing. *)
Theorem scale_minmax_range (data : frame) (i : nat) (f : string)
    (v : list num) (lo hi : Q) :
  nth_error (cols data) i = Some (f, Num v) ->
  series_min v = Some lo ->
  series_max v = Some hi ->
  ~ (lo == hi)%Q ->
  exists out p v',
    scale sqrtQ data None "minmax" = Ok (out, p)
    /\ nth_error (cols out) i = Some (f, Num v')
    /\ Forall2 (fun x x' =>
                  match x, x' with
                  | Some x, Some x' =>
                      (x' == (x - lo) / (hi - lo))%Q
                      /\ (0 <= x')%Q /\ (x' <= 1)%Q
                  | None, None => True
                  | _, _ => False
                  end) v v'.
Proof.
  intros Hi Hlo Hhi Hne.
  exists (Frame (shape0 data) (fit_cols sqrtQ "minmax" (cols data))),
    (fit_params sqrtQ "minmax" (cols data) []),
    (fst (fit_of sqrtQ "minmax" v)).
  split; [now apply scale_fit|]. split; [now apply fit_cols_nth|].
  assert (Hlt : (lo < hi)%Q).
  { pose proof (series_min_le_max v lo hi Hlo Hhi) as Hle.
    apply Qle_lteq in Hle as [H|H]; [exact H|contradiction]. }
  unfold fit_of. simpl. rewrite Hlo, Hhi. apply Forall2_map_r.
  intros [x|] Hx; [|exact I].
  cbv [nsub ndiv nlift2]. rewrite (range_not_zero lo hi Hne).
  pose proof (series_min_le v lo x Hlo Hx) as H1.
  pose proof (series_max_ge v hi x Hhi Hx) as H2.
  split; [reflexivity|]. split.
  - apply Qle_shift_div_l; lra.
  - apply Qle_shift_div_r; lra.
Qed.

(** X6. The method maxabs of [scale] in the fit mode maps a numerical column
    that holds two different values into the interval from -1 to 1: each
    value [x] becomes [2 * (x - min) / (max - min) - 1], which lies between
    -1 and 1, and a missing cell stays missing. *)
Theorem scale_maxabs_range (data : frame) (i : nat) (f : string)
    (v : list num) (lo hi : Q) :
  nth_error (cols data) i = Some (f, Num v) ->
  series_min v = Some lo ->
  series_max v = Some hi ->
  ~ (lo == hi)%Q ->
  exists out p v',
    scale sqrtQ data None "maxabs" = Ok (out, p)
    /\ nth_error (cols out) i = Some (f, Num v')
    /\ Forall2 (fun x x' =>
                  match x, x' with
                  | Some x, Some x' =>
                      (x' == 2 * (x - lo) / (hi - lo) - 1)%Q
                      /\ (-1 <= x')%Q /\ (x' <= 1)%Q
                  | None, None => True
                  | _, _ => False
                  end) v v'.
Proof.
  intros Hi Hlo Hhi Hne.
  exists (Frame (shape0 data) (fit_cols sqrtQ "maxabs" (cols data))),
    (fit_params sqrtQ "maxabs" (cols data) []),
    (fst (fit_of sqrtQ "maxabs" v)).
  split; [now apply scale_fit|]. split; [now apply fit_cols_nth|].
  assert (Hlt : (lo < hi)%Q).
  { pose proof (series_min_le_max v lo hi Hlo Hhi) as Hle.
    apply Qle_lteq in Hle as [H|H]; [exact H|contradiction]. }
  unfold fit_of. simpl. rewrite Hlo, Hhi. apply Forall2_map_r.
  intros [x|] Hx; [|exact I].
  cbv [nsub nmul ndiv nlift2]. rewrite (range_not_zero lo hi Hne).
  pose proof (series_min_le v lo x Hlo Hx) as H1.
  pose proof (series_max_ge v hi x Hhi Hx) as H2.
  split; [reflexivity|].
  assert (H0 : (0 <= 2 * (x - lo) / (hi - lo))%Q)
    by (apply Qle_shift_div_l; lra).
  assert (H3 : (2 * (x - lo) / (hi - lo) <= 2)%Q)
    by (apply Qle_shift_div_r; lra).
  split; lra.
Qed.

(** X7. With the method maxabs, replaying [scale] on the table that the fit
    returned, with the statistics that the fit returned, gives the values of
    the table that was fitted back: the replay branch of maxabs undoes the
    fit branch. *)
Theorem scale_maxabs_fit_then_replay (data : frame) (i : nat) (f : string)
    (v : list num) (lo hi : Q) :
  NoDup (names data) ->
  nth_error (cols data) i = Some (f, Num v) ->
  series_min v = Some lo ->
  series_max v = Some hi ->
  ~ (lo == hi)%Q ->
  exists out p out2 v2,
    scale sqrtQ data None "maxabs" = Ok (out, p)
    /\ scale sqrtQ out (Some p) "maxabs" = Ok (out2, p)
    /\ nth_error (cols out2) i = Some (f, Num v2)
    /\ Forall2 same_cell v v2.
Proof.
  intros Hnd Hi Hlo Hhi Hne.
  set (p := fit_params sqrtQ "maxabs" (cols data) []).
  set (cs := fit_cols sqrtQ "maxabs" (cols data)).
  assert (Hin : In (f, Num v) (cols data)) by (eapply nth_error_In; eauto).
  assert (Hl : lookup f p = Some (Some lo, Some hi)).
  { unfold p. rewrite (fit_params_lookup sqrtQ "maxabs" f v) by assumption.
    unfold fit_of. simpl. now rewrite Hlo, Hhi. }
  assert (Hall : forall g w, In (g, Num w) cs -> lookup g p <> None).
  { intros g w Hg Hnone. apply lookup_None in Hnone. apply Hnone.
    unfold p. apply fit_params_keys. right. unfold cs, fit_cols in Hg.
    apply in_map_iff in Hg as [[g0 c0] [Hc Hin0]].
    destruct c0 as [w0|cats w0|w0]; simpl in Hc;
      [|discriminate Hc..|discriminate Hc].
    injection Hc as -> _. now exists w0. }
  exists (Frame (shape0 data) cs), p,
    (Frame (shape0 data) (replay_cols "maxabs" p cs)),
    (replay_of "maxabs" (Some lo, Some hi) (fst (fit_of sqrtQ "maxabs" v))).
  split; [now apply scale_fit|]. split.
  { unfold scale. simpl valid_method. cbn [negb].
    destruct p as [|kv p'] eqn:Ep; [discriminate Hl|].
    cbn [truthy negb]. rewrite <- Ep in *.
    rewrite scale_loop_apply; auto. }
  split.
  { simpl. unfold replay_cols. rewrite nth_error_map. unfold cs.
    rewrite (fit_cols_nth "maxabs" _ i f v Hi). simpl. now rewrite Hl. }
  unfold replay_of, fit_of. simpl. rewrite Hlo, Hhi, map_map.
  apply Forall2_map_r. intros [x|] _; [|exact I].
  cbv [nsub nmul nadd ndiv nlift2]. rewrite (range_not_zero lo hi Hne).
  unfold same_cell. field. intros H. apply Hne. lra.
Qed.

(** ** remove_outliers *)

(** X8. [remove_outliers] blanks every cell of a numerical column that has
    fewer than two values: the standard deviation of such a column is NaN
    and no comparison with NaN holds. *)
Theorem remove_outliers_few_values (df : frame) (sigma : Q) (i : nat)
    (f : string) (v : list num) :
  nth_error (cols df) i = Some (f, Num v) ->
  (List.length (dropna v) <= 1)%nat ->
  nth_error (cols (remove_outliers sqrtQ df sigma)) i =
  Some (f, Num (map (fun _ => None) v)).
Proof.
  intros Hi Hlen. rewrite remove_outliers_nth, Hi. f_equal. f_equal. f_equal.
  unfold remove_outliers_column.
  assert (Hs : series_std sqrtQ v = None).
  { unfold series_std. destruct (series_mean v); [|reflexivity].
    apply Nat.leb_le in Hlen. now rewrite Hlen. }
  rewrite Hs. apply map_ext. intros x.
  destruct (nabs (nsub x (series_mean v))); reflexivity.
Qed.

(** X9. [remove_outliers] keeps the number of rows of the table and its
    columns in their order under their names, leaves the columns that are
    not numerical as they are and, in a numerical column, changes no value:
    each cell is kept as it is or blanked. *)
Theorem remove_outliers_frame (df : frame) (sigma : Q) :
  shape0 (remove_outliers sqrtQ df sigma) = shape0 df
  /\ Forall2 blanked_column (cols df) (cols (remove_outliers sqrtQ df sigma)).
Proof.
  split; [reflexivity|]. unfold remove_outliers. simpl.
  apply Forall2_map_r. intros [f c] _. unfold blanked_column.
  destruct c as [v|cats v|v]; simpl; auto.
  split; [reflexivity|]. eexists. split; [reflexivity|].
  unfold remove_outliers_column. apply Forall2_map_r. intros x _.
  unfold kept_or_blanked.
  destruct (nle (nabs (nsub x (series_mean v)))
              (nmul (Some sigma) (series_std sqrtQ v))); auto.
Qed.

End ScaledValues.

(** * Further properties of the categorical transforms *)

(** ** Sorted lists without repetition *)

Lemma In_insert_sorted {A} (leb : A -> A -> bool) (x y : A) (l : list A) :
  In y (insert_sorted leb x l) <-> y = x \/ In y l.
Proof.
  induction l as [|z l IH]; simpl.
  - split; [intros [H|[]]; auto|intros [H|[]]; auto].
  - destruct (leb x z); simpl.
    + split; [intros [H|H]; auto|intros [H|H]; auto].
    + rewrite IH. split.
      * intros [H|[H|H]]; auto.
      * intros [H|[H|H]]; auto.
Qed.

Lemma In_sort {A} (leb : A -> A -> bool) (y : A) (l : list A) :
  In y (sort leb l) <-> In y l.
Proof.
  induction l as [|x l IH]; simpl; [tauto|].
  change (sort leb (x :: l)) with (insert_sorted leb x (sort leb l)).
  rewrite In_insert_sorted, IH. split.
  - intros [H|H]; auto.
  - intros [H|H]; auto.
Qed.

Lemma NoDup_insert_sorted {A} (leb : A -> A -> bool) (x : A) (l : list A) :
  NoDup l -> ~ In x l -> NoDup (insert_sorted leb x l).
Proof.
  induction l as [|z l IH]; simpl; intros Hnd Hx.
  - constructor; [intros []|constructor].
  - destruct (leb x z).
    + constructor; assumption.
    + inversion Hnd as [|? ? Hz Hl]; subst. constructor.
      * rewrite In_insert_sorted. intros [H|H]; [|contradiction].
        apply Hx. left. exact H.
      * apply IH; [exact Hl|]. intros H. apply Hx. now right.
Qed.

Lemma NoDup_sort {A} (leb : A -> A -> bool) (l : list A) :
  NoDup l -> NoDup (sort leb l).
Proof.
  induction 1 as [|x l Hx Hnd IH]; [constructor|].
  change (sort leb (x :: l)) with (insert_sorted leb x (sort leb l)).
  apply NoDup_insert_sorted; [exact IH|].
  intros H. apply Hx. exact (proj1 (In_sort leb x l) H).
Qed.

Lemma NoDup_unique (l : list string) : NoDup (unique String.eqb l).
Proof.
  induction l as [|x l IH]; simpl; constructor.
  - rewrite filter_In. intros [_ H]. now rewrite String.eqb_refl in H.
  - now apply NoDup_filter.
Qed.

Lemma has_duplicates_false (l : list string) :
  has_duplicates l = false <-> NoDup l.
Proof.
  induction l as [|x l IH]; simpl.
  - split; [constructor|reflexivity].
  - rewrite orb_false_iff, mem_false, IH. split.
    + intros [H1 H2]. now constructor.
    + intros H. inversion H; subst. auto.
Qed.

Lemma keep_labels_ext (k1 k2 : string -> bool) (v : list cell) :
  (forall s, In (Some s) v -> k1 s = k2 s) ->
  keep_labels k1 v = keep_labels k2 v.
Proof.
  intros H. unfold keep_labels. apply map_ext_in. intros [s|] Hs; auto.
  now rewrite (H s Hs).
Qed.

Lemma category_invariant_categorize (v : list cell) :
  category_invariant (categorize v) = true.
Proof.
  unfold categorize, category_invariant. apply andb_true_iff. split.
  - apply negb_true_iff, has_duplicates_false, NoDup_sort, NoDup_unique.
  - apply forallb_forall. intros s Hs. apply mem_In.
    apply (proj2 (In_sort String.leb s _)). apply (proj2 (In_unique s _)).
    exact Hs.
Qed.

Lemma category_invariant_cells (cats : list string) (v : list cell) :
  category_invariant (Cat cats v) = true ->
  NoDup cats /\ forall s, In (Some s) v -> In s cats.
Proof.
  simpl. intros H. apply andb_true_iff in H as [H1 H2].
  apply negb_true_iff, has_duplicates_false in H1. split; [exact H1|].
  intros s Hs. rewrite forallb_forall in H2. apply mem_In, H2.
  now apply In_dropna.
Qed.

(** ** force_categorical *)

Lemma force_categorical_keeps_invariant (df : frame) :
  categories_ok df = true -> categories_ok (force_categorical df) = true.
Proof.
  unfold categories_ok, force_categorical. simpl. rewrite !forallb_forall.
  intros H c Hc. apply in_map_iff in Hc as [[g c0] [<- Hin]].
  specialize (H _ Hin). destruct c0 as [w|cats w|w]; simpl in *; auto.
  apply (category_invariant_categorize w).
Qed.

(** X10. [force_categorical] turns every column of objects into a category
    column and changes nothing else: no column of objects is left, the names
    and the cells of the columns are as they were, calling it again changes
    nothing, and a table whose category columns satisfy the invariant of the
    category dtype still satisfies it. *)
Theorem force_categorical_idempotent (df : frame) :
  force_categorical (force_categorical df) = force_categorical df
  /\ (forall f v, ~ In (f, Obj v) (cols (force_categorical df)))
  /\ frame_values (cols (force_categorical df)) = frame_values (cols df)
  /\ (categories_ok df = true ->
      categories_ok (force_categorical df) = true).
Proof.
  unfold force_categorical. simpl. split; [|split; [|split]].
  - f_equal. rewrite map_map. apply map_ext.
    intros [f [v|cats v|v]]; reflexivity.
  - intros f v H. apply in_map_iff in H as [[g [w|cats w|w]] [Hc _]];
      discriminate Hc.
  - unfold frame_values. rewrite map_map. apply map_ext.
    intros [f [v|cats v|v]]; reflexivity.
  - apply (force_categorical_keeps_invariant df).
Qed.

(** ** remove_lowfreq *)

Lemma remove_lowfreq_column_eq (threshold : Q) (cats : list string)
    (v : list cell) :
  remove_lowfreq_column threshold cats v =
  remove_categories_column threshold cats v.
Proof.
  unfold remove_lowfreq_column, remove_categories_column.
  destruct (low_freq threshold cats v); reflexivity.
Qed.

(** X11. [remove_lowfreq] and the fit mode of [remove_categories] give the
    same table: the function that replaced [remove_lowfreq] changed nothing
    to the table it returns, it returns the vocabulary beside it. *)
Theorem remove_lowfreq_agrees (df : frame) (target : option (list string))
    (ratio : Q) :
  exists d,
    remove_categories df target ratio None =
    Ok (remove_lowfreq df target ratio, d).
Proof.
  exists (level_vocabulary (inject_Z (Z.of_nat (shape0 df)) * ratio)
            (target_list target) (cols (force_categorical df)) []).
  unfold remove_categories. cbn [truthy].
  rewrite remove_categories_loop_fit. cbn [bind]. unfold remove_lowfreq.
  do 3 f_equal. unfold level_cols. apply map_ext.
  intros [f [v|cats v|v]]; simpl; auto.
  now rewrite remove_lowfreq_column_eq.
Qed.

(** ** What remove_categories keeps *)

Lemma keep_labels_blanks (keep : string -> bool) (v : list cell) :
  Forall2 kept_or_blanked v (keep_labels keep v).
Proof.
  unfold keep_labels. apply Forall2_map_r. intros [s|] _.
  - destruct (keep s); [now left|now right].
  - now left.
Qed.

Lemma remove_categories_column_blanks (threshold : Q) (cats : list string)
    (v : list cell) :
  exists cats' v',
    remove_categories_column threshold cats v = Cat cats' v'
    /\ Forall2 kept_or_blanked v v'.
Proof.
  unfold remove_categories_column.
  destruct (low_freq threshold cats v).
  - exists cats, v. split; [reflexivity|]. apply Forall2_same.
    intros x. now left.
  - eexists. eexists. split; [reflexivity|]. apply keep_labels_blanks.
Qed.

Lemma remove_categories_loop_frame (threshold : Q) (target : list string)
    (apply : bool) (data : list (string * column)) :
  forall d data' d',
    remove_categories_loop threshold target apply
      (cols (force_categorical (Frame 0 data))) d = Ok (data', d') ->
    Forall2 levelled_column data data'
    /\ (apply = true -> d' = d).
Proof.
  induction data as [|[f c] rest IH]; intros d data' d' H; simpl in H.
  - injection H as <- <-. split; [constructor|reflexivity].
  - assert (Hlabel : forall cats v data1 d1,
      remove_categories_loop threshold target apply
        ((f, Cat cats v)
         :: map (fun c0 : string * column =>
                   match snd c0 with
                   | Obj v0 => (fst c0, categorize v0)
                   | _ => c0
                   end) rest) d = Ok (data1, d1) ->
      exists c' rest',
        data1 = (f, c') :: rest'
        /\ Forall2 levelled_column rest rest'
        /\ (exists cats' v',
              c' = Cat cats' v' /\ Forall2 kept_or_blanked v v')
        /\ (apply = true -> d1 = d)).
    { intros cats v data1 d1 H1. simpl in H1.
      destruct (mem f target).
      - apply bind_Ok in H1 as ([rest' d2] & Hr & H1).
        injection H1 as <- <-. destruct (IH _ _ _ Hr) as [Hf Hd].
        exists (Cat cats v), rest'. repeat split; auto.
        exists cats, v. split; [reflexivity|]. apply Forall2_same.
        intros x. now left.
      - destruct apply.
        + destruct (lookup f d) as [new|]; [|discriminate].
          apply bind_Ok in H1 as (c1 & Hset & H1).
          apply bind_Ok in H1 as ([rest' d2] & Hr & H1).
          injection H1 as <- <-. destruct (IH _ _ _ Hr) as [Hf Hd].
          exists c1, rest'. repeat split; auto.
          unfold set_categories in Hset.
          destruct (has_duplicates new); [discriminate|].
          injection Hset as <-. eexists. eexists.
          split; [reflexivity|]. apply keep_labels_blanks.
        + apply bind_Ok in H1 as ([rest' d2] & Hr & H1).
          injection H1 as <- <-. destruct (IH _ _ _ Hr) as [Hf Hd].
          eexists. exists rest'. split; [reflexivity|].
          split; [exact Hf|]. split; [|discriminate].
          apply remove_categories_column_blanks. }
    destruct c as [v|cats v|v]; simpl in H.
    + apply bind_Ok in H as ([rest' d2] & Hr & H). injection H as <- <-.
      destruct (IH _ _ _ Hr) as [Hf Hd]. split; [|exact Hd].
      constructor; [|exact Hf]. now split.
    + destruct (Hlabel _ _ _ _ H) as (c' & rest' & -> & Hf & Hc & Hd).
      split; [|exact Hd]. constructor; [|exact Hf]. now split.
    + destruct (Hlabel _ _ _ _ H) as (c' & rest' & -> & Hf & Hc & Hd).
      split; [|exact Hd]. constructor; [|exact Hf]. now split.
Qed.

(** X12. When [remove_categories] returns, in the fit mode and in the replay
    mode, the table has its number of rows and its columns in their order
    under their names, a numerical column is as it was, and a column of
    labels is a category column in which no label was changed: each cell is
    kept as it is or blanked.  In the replay mode the vocabulary it returns
    is the one it was given. *)
Theorem remove_categories_frame (df : frame) (target : option (list string))
    (ratio : Q) (dict_categories : option categories_t) (out : frame)
    (d : categories_t) :
  remove_categories df target ratio dict_categories = Ok (out, d) ->
  shape0 out = shape0 df
  /\ Forall2 levelled_column (cols df) (cols out)
  /\ (truthy dict_categories = true -> dict_categories = Some d).
Proof.
  unfold remove_categories. intros H.
  apply bind_Ok in H as ([data' d'] & Hloop & H). injection H as <- <-.
  apply remove_categories_loop_frame in Hloop as [Hf Hd].
  split; [reflexivity|]. split; [exact Hf|].
  intros Ht. rewrite (Hd Ht). rewrite Ht.
  destruct dict_categories as [[|kv V]|]; try discriminate. reflexivity.
Qed.

(** ** The replay of remove_categories on the table it was fitted on *)

Lemma level_vocabulary_keys (threshold : Q) (target : list string)
    (data : list (string * column)) :
  forall d f,
    In f (map fst (level_vocabulary threshold target data d)) <->
    In f (map fst d)
    \/ exists cats v, In (f, Cat cats v) data /\ mem f target = false.
Proof.
  induction data as [|[g c] rest IH]; intros d f; simpl.
  - split; [auto|]. intros [H|(cats & v & [] & _)]. exact H.
  - destruct c as [w|cats w|w].
    + rewrite IH. split.
      * intros [H|(cs & v & H & Ht)]; eauto 6.
      * intros [H|(cs & v & [H|H] & Ht)]; eauto 6. discriminate H.
    + destruct (mem g target) eqn:E.
      * rewrite IH. split.
        -- intros [H|(cs & v & H & Ht)]; eauto 6.
        -- intros [H|(cs & v & [H|H] & Ht)]; eauto 6.
           injection H as -> _ _. congruence.
      * rewrite IH, keys_update. split.
        -- intros [[->|H]|(cs & v & H & Ht)]; eauto 7.
        -- intros [H|(cs & v & [H|H] & Ht)]; eauto 6.
           injection H as -> _ _. auto.
    + rewrite IH. split.
      * intros [H|(cs & v & H & Ht)]; eauto 6.
      * intros [H|(cs & v & [H|H] & Ht)]; eauto 6. discriminate H.
Qed.

Lemma level_without_candidates (threshold : Q) (target : list string)
    (data : list (string * column)) :
  (forall f cats v, In (f, Cat cats v) data -> mem f target = true) ->
  forall d,
    level_cols threshold target data = data
    /\ level_vocabulary threshold target data d = d.
Proof.
  induction data as [|[g c] rest IH]; intros H d; simpl; [auto|].
  destruct (IH (fun f cats v Hin => H f cats v (or_intror Hin)) d)
    as [Hc Hv].
  unfold level_cols in *. destruct c as [w|cats w|w]; simpl.
  - now rewrite Hc, Hv.
  - rewrite (H g cats w (or_introl eq_refl)). now rewrite Hc, Hv.
  - now rewrite Hc, Hv.
Qed.

Lemma set_categories_fitted (threshold : Q) (cats : list string)
    (v : list cell) :
  category_invariant (Cat cats v) = true ->
  set_categories
    (column_categories (remove_categories_column threshold cats v)) v =
  Ok (remove_categories_column threshold cats v).
Proof.
  intros Hinv. apply category_invariant_cells in Hinv as [Hnd Hcells].
  unfold remove_categories_column, set_categories.
  destruct (low_freq threshold cats v) as [|c0 low] eqn:E;
    cbn [column_categories].
  - rewrite (proj2 (has_duplicates_false cats) Hnd).
    rewrite keep_labels_id; [reflexivity|].
    intros s Hs. now apply mem_In, Hcells.
  - set (low' := c0 :: low).
    set (v' := keep_labels (fun s => negb (mem s low')) v).
    assert (Hd : has_duplicates (remove_unused_categories cats v') = false).
    { apply has_duplicates_false. unfold remove_unused_categories.
      now apply NoDup_filter. }
    rewrite Hd. do 2 f_equal. unfold v'. apply keep_labels_ext.
    intros s Hs. unfold remove_unused_categories.
    destruct (mem s low') eqn:El; cbn [negb].
    + apply mem_false. rewrite filter_In, mem_In, In_dropna_keep_labels.
      intros (_ & _ & H). cbv beta in H. rewrite El in H. discriminate H.
    + apply mem_In. rewrite filter_In, mem_In, In_dropna_keep_labels.
      cbv beta. rewrite El. auto.
Qed.

Lemma replay_loop_fitted (threshold threshold' : Q) (target : list string)
    (d : categories_t) (data : list (string * column)) :
  (forall f cats v,
      In (f, Cat cats v) data -> mem f target = false ->
      lookup f d =
      Some (column_categories (remove_categories_column threshold cats v))
      /\ category_invariant (Cat cats v) = true) ->
  remove_categories_loop threshold' target true data d =
  Ok (level_cols threshold target data, d).
Proof.
  induction data as [|[f c] rest IH]; intros H; simpl; [reflexivity|].
  assert (Hrest : remove_categories_loop threshold' target true rest d =
                  Ok (level_cols threshold target rest, d)).
  { apply IH. intros g cats v Hin. apply H. now right. }
  destruct c as [w|cats w|w]; simpl; [now rewrite Hrest| |now rewrite Hrest].
  destruct (mem f target) eqn:E; [now rewrite Hrest|].
  destruct (H f cats w (or_introl eq_refl) E) as [Hl Hinv].
  rewrite Hl, (set_categories_fitted threshold cats w Hinv). simpl.
  now rewrite Hrest.
Qed.

(** X13. Replaying [remove_categories] on the table it was fitted on, with
    the vocabulary the fit returned, gives the table and the vocabulary of
    the fit, whatever [ratio] the replay is given; the names of the columns
    are distinct and the category columns satisfy the invariant of their
    dtype. *)
Theorem remove_categories_fit_then_replay (df : frame)
    (target : option (list string)) (ratio : Q) :
  categories_ok df = true ->
  NoDup (names df) ->
  exists out d,
    remove_categories df target ratio None = Ok (out, d)
    /\ forall ratio', remove_categories df target ratio' (Some d) = Ok (out, d).
Proof.
  intros Hok Hnd.
  set (t := target_list target).
  set (cs := cols (force_categorical df)).
  set (thr := (inject_Z (Z.of_nat (shape0 df)) * ratio)%Q).
  exists (Frame (shape0 df) (level_cols thr t cs)),
    (level_vocabulary thr t cs []).
  assert (Hfit : forall r,
            remove_categories df target r None =
            Ok (Frame (shape0 df)
                  (level_cols (inject_Z (Z.of_nat (shape0 df)) * r) t cs),
                level_vocabulary (inject_Z (Z.of_nat (shape0 df)) * r) t cs
                  [])).
  { intros r. unfold remove_categories. cbn [truthy].
    fold t. fold cs. now rewrite remove_categories_loop_fit. }
  split; [apply Hfit|]. intros ratio'.
  destruct (level_vocabulary thr t cs []) as [|kv V] eqn:Ed.
  - assert (Hnone : forall f cats v, In (f, Cat cats v) cs ->
                      mem f t = true).
    { intros f cats v Hin. destruct (mem f t) eqn:E; [reflexivity|].
      assert (Hk : In f (map fst (level_vocabulary thr t cs [])))
        by (apply level_vocabulary_keys; right; eauto).
      rewrite Ed in Hk. destruct Hk. }
    change (remove_categories df target ratio' (Some []))
      with (remove_categories df target ratio' None).
    rewrite Hfit.
    destruct (level_without_candidates thr t cs Hnone []) as [H1 _].
    destruct (level_without_candidates
                (inject_Z (Z.of_nat (shape0 df)) * ratio') t cs Hnone [])
      as [H2 H3].
    now rewrite H1, H2, H3.
  - rewrite <- Ed. unfold remove_categories.
    replace (truthy (Some (level_vocabulary thr t cs []))) with true
      by (now rewrite Ed).
    fold t. fold cs. rewrite (replay_loop_fitted thr); [reflexivity|].
    intros f cats v Hin Ht. split.
    + apply level_vocabulary_lookup; auto.
      * unfold cs. fold (names (force_categorical df)).
        now rewrite names_force_categorical.
      * now apply mem_false.
    + pose proof (force_categorical_keeps_invariant df Hok) as Hok'.
      unfold categories_ok in Hok'. rewrite forallb_forall in Hok'.
      exact (Hok' _ Hin).
Qed.

(** ** The replay of remove_categories with a vocabulary that lacks a column *)

Lemma replay_loop_total (target : list string) (d : categories_t)
    (data : list (string * column)) :
  (forall c, In c data -> is_candidate target c = true ->
             replayable d (fst c) = true) ->
  exists data',
    forall threshold,
      remove_categories_loop threshold target true data d = Ok (data', d).
Proof.
  induction data as [|[f c] rest IH]; intros H.
  - exists []. reflexivity.
  - destruct IH as [rest' Hrest].
    { intros c0 Hin. apply H. now right. }
    destruct c as [w|cats w|w].
    + exists ((f, Num w) :: rest'). intros thr. simpl. now rewrite Hrest.
    + destruct (mem f target) eqn:E.
      * exists ((f, Cat cats w) :: rest'). intros thr. simpl.
        now rewrite E, Hrest.
      * specialize (H (f, Cat cats w) (or_introl eq_refl)).
        unfold is_candidate, replayable in H. simpl in H. rewrite E in H.
        specialize (H eq_refl).
        destruct (lookup f d) as [new|] eqn:El; [|discriminate].
        apply negb_true_iff in H.
        exists ((f, Cat new (keep_labels (fun s => mem s new) w)) :: rest').
        intros thr. simpl. rewrite E, El. unfold set_categories.
        rewrite H. simpl. now rewrite Hrest.
    + exists ((f, Obj w) :: rest'). intros thr. simpl. now rewrite Hrest.
Qed.

Lemma replay_loop_inv (threshold : Q) (target : list string)
    (d : categories_t) (data : list (string * column)) :
  forall data' d',
    remove_categories_loop threshold target true data d = Ok (data', d') ->
    forall c, In c data -> is_candidate target c = true ->
              replayable d (fst c) = true.
Proof.
  induction data as [|[f c] rest IH]; intros data' d' H c0 Hin Hc;
    [destruct Hin|].
  simpl in H. destruct c as [w|cats w|w].
  - apply bind_Ok in H as ([rest' d2] & Hr & _).
    destruct Hin as [<-|Hin]; [discriminate Hc|]. eapply IH; eauto.
  - destruct (mem f target) eqn:E.
    + apply bind_Ok in H as ([rest' d2] & Hr & _).
      destruct Hin as [<-|Hin]; [|eapply IH; eauto].
      unfold is_candidate in Hc. simpl in Hc. rewrite E in Hc.
      discriminate Hc.
    + destruct (lookup f d) as [new|] eqn:El; [|discriminate].
      apply bind_Ok in H as (c1 & Hset & H).
      apply bind_Ok in H as ([rest' d2] & Hr & _).
      destruct Hin as [<-|Hin]; [|eapply IH; eauto].
      unfold replayable. simpl. rewrite El. unfold set_categories in Hset.
      destruct (has_duplicates new); [discriminate|reflexivity].
  - apply bind_Ok in H as ([rest' d2] & Hr & _).
    destruct Hin as [<-|Hin]; [discriminate Hc|]. eapply IH; eauto.
Qed.

Lemma replay_loop_raise (threshold : Q) (target : list string)
    (d : categories_t) (data : list (string * column)) (e : error) :
  remove_categories_loop threshold target true data d = Raise e ->
  exists c,
    In c data /\ is_candidate target c = true
    /\ ((e = KeyError (fst c) /\ lookup (fst c) d = None)
        \/ (e = ValueError
            /\ exists new,
                lookup (fst c) d = Some new /\ has_duplicates new = true)).
Proof.
  induction data as [|[f c] rest IH]; simpl; intros H; [discriminate|].
  assert (Hrest : forall (k : list (string * column) * categories_t ->
                              result (list (string * column) * categories_t)),
             (forall a, k a <> Raise e) ->
             bind (remove_categories_loop threshold target true rest d) k
             = Raise e ->
             exists c0,
               In c0 ((f, c) :: rest) /\ is_candidate target c0 = true
               /\ ((e = KeyError (fst c0) /\ lookup (fst c0) d = None)
                   \/ (e = ValueError
                       /\ exists new,
                           lookup (fst c0) d = Some new
                           /\ has_duplicates new = true))).
  { intros k Hk Hb. apply bind_Raise in Hb as [Hb|[a [_ Hb]]].
    - destruct (IH Hb) as (c0 & Hin & Hc & He). exists c0.
      split; [now right|]. now split.
    - now apply Hk in Hb. }
  destruct c as [w|cats w|w].
  - apply Hrest in H; auto. intros [r d2]. discriminate.
  - destruct (mem f target) eqn:E.
    + apply Hrest in H; auto. intros [r d2]. discriminate.
    + assert (Hcand : is_candidate target (f, Cat cats w) = true)
        by (unfold is_candidate; simpl; now rewrite E).
      destruct (lookup f d) as [new|] eqn:El.
      * apply bind_Raise in H as [H|[c1 [_ H]]].
        -- unfold set_categories in H.
           destruct (has_duplicates new) eqn:Ed; [|discriminate].
           injection H as <-. exists (f, Cat cats w).
           split; [now left|]. split; [exact Hcand|]. right.
           split; [reflexivity|]. now exists new.
        -- apply Hrest in H; auto. intros [r d2]. discriminate.
      * injection H as <-. exists (f, Cat cats w).
        split; [now left|]. split; [exact Hcand|]. left. now split.
  - apply Hrest in H; auto. intros [r d2]. discriminate.
Qed.

(** X14. The replay of [remove_categories] with a vocabulary [V] that is not
    empty returns if and only if [V] has, for every category column that is
    no target (a column of objects counts, being turned into a category
    column first), an entry without a repeated category; it then returns
    [V].  When it does not return, the error is the KeyError of such a
    column that has no entry, or the ValueError of an entry that repeats a
    category. *)
Theorem remove_categories_replay_keys (df : frame)
    (target : option (list string)) (ratio : Q)
    (kv : string * list string) (V : categories_t) :
  let d := kv :: V in
  let cs := cols (force_categorical df) in
  let t := target_list target in
  ((exists out, remove_categories df target ratio (Some d) = Ok (out, d))
   <-> (forall c, In c cs -> is_candidate t c = true ->
                  replayable d (fst c) = true))
  /\ (forall out d',
        remove_categories df target ratio (Some d) = Ok (out, d') -> d' = d)
  /\ (forall e,
        remove_categories df target ratio (Some d) = Raise e ->
        exists c,
          In c cs /\ is_candidate t c = true
          /\ ((e = KeyError (fst c) /\ lookup (fst c) d = None)
              \/ (e = ValueError
                  /\ exists new,
                      lookup (fst c) d = Some new
                      /\ has_duplicates new = true))).
Proof.
  intros d cs t. subst d cs t. unfold remove_categories. cbn [truthy].
  split; [split|split].
  - intros [out H] c Hin Hc.
    apply bind_Ok in H as ([data' d'] & Hloop & _).
    eapply replay_loop_inv; eauto.
  - intros H. destruct (replay_loop_total _ _ _ H) as [data' Hloop].
    eexists. rewrite Hloop. reflexivity.
  - intros out d' H. apply bind_Ok in H as ([data' d2] & Hloop & H).
    injection H as _ <-.
    apply (remove_categories_loop_frame _ _ true (cols df)) in Hloop
      as [_ Hd]. now apply Hd.
  - intros e H. apply bind_Raise in H as [H|[[r d2] [_ H]]];
      [|discriminate]. now apply replay_loop_raise in H.
Qed.

(** * Properties of missing *)

Lemma count_null_le (c : column) : (count_null c <= column_length c)%nat.
Proof.
  destruct c; simpl; apply filter_length_le.
Qed.

Lemma In_missing_counts (df : frame) (p : string * nat) :
  In p (missing_counts df) <->
  exists c, In (fst p, c) (cols df) /\ snd p = count_null c
            /\ (0 < snd p)%nat.
Proof.
  unfold missing_counts. rewrite In_sort, filter_In, in_map_iff, Nat.ltb_lt.
  split.
  - intros [[[f c] [<- Hin]] Hpos]. now exists c.
  - intros (c & Hin & Hc & Hpos). split; [|exact Hpos].
    exists (fst p, c). split; [|exact Hin]. destruct p. simpl in *.
    now subst.
Qed.

Lemma missing_counts_rows (df : frame) (p : string * nat) :
  well_formed df = true -> In p (missing_counts df) -> (0 < shape0 df)%nat.
Proof.
  intros Hwf Hp. apply In_missing_counts in Hp as (c & Hin & Hc & Hpos).
  unfold well_formed in Hwf. rewrite forallb_forall in Hwf.
  specialize (Hwf _ Hin). simpl in Hwf. apply Nat.eqb_eq in Hwf.
  pose proof (count_null_le c). lia.
Qed.

Lemma map_fst_filter_map {A B C} (h : A * B -> C) (P : A * C -> bool)
    (l : list (A * B)) :
  map fst (filter P (map (fun p => (fst p, h p)) l)) =
  map fst (filter (fun p => P (fst p, h p)) l).
Proof.
  induction l as [|p l IH]; simpl; [reflexivity|].
  destruct (P (fst p, h p)); simpl; now rewrite IH.
Qed.

Lemma missing_with_limit (df : frame) (limit : Q) :
  Qeq_bool limit 0 = false ->
  missing df (Some limit) =
  Some (map fst (filter (over_limit df limit) (missing_counts df))).
Proof.
  intros Hl. unfold missing. destruct (missing_counts df) as [|p m] eqn:E.
  - reflexivity.
  - rewrite Hl. f_equal.
    apply (map_fst_filter_map
             (fun p => ndiv (Some (inject_Z (Z.of_nat (snd p))))
                            (Some (inject_Z (Z.of_nat (shape0 df)))))
             (fun q => ngt (snd q) (Some limit))).
Qed.

Lemma over_limit_spec (df : frame) (limit : Q) (p : string * nat) :
  (0 < shape0 df)%nat ->
  over_limit df limit p = true <->
  (limit < inject_Z (Z.of_nat (snd p)) / inject_Z (Z.of_nat (shape0 df)))%Q.
Proof.
  intros Hpos. unfold over_limit, ndiv, ngt.
  assert (Hz : Qeq_bool (inject_Z (Z.of_nat (shape0 df))) 0 = false).
  { destruct (Qeq_bool (inject_Z (Z.of_nat (shape0 df))) 0) eqn:E;
      [|reflexivity].
    apply Qeq_bool_iff in E. unfold Qeq in E. simpl in E. lia. }
  rewrite Hz, negb_true_iff. split.
  - intros H. apply Qnot_le_lt. intros Hle. apply Qle_bool_iff in Hle.
    congruence.
  - intros H. destruct (Qle_bool _ limit) eqn:E; [|reflexivity].
    apply Qle_bool_iff in E. exfalso. apply (Qlt_not_le _ _ H E).
Qed.

(** X15. With a limit that is not 0, on a table whose columns have the
    number of rows of the table, [missing] returns the names of the columns
    that have a missing cell and in which the ratio of the missing cells to
    the rows is strictly greater than the limit, and no other name. *)
Theorem missing_members (df : frame) (limit : Q) :
  well_formed df = true ->
  Qeq_bool limit 0 = false ->
  exists l,
    missing df (Some limit) = Some l
    /\ forall name,
        In name l <->
        exists c,
          In (name, c) (cols df) /\ (0 < count_null c)%nat
          /\ (limit < inject_Z (Z.of_nat (count_null c))
                      / inject_Z (Z.of_nat (shape0 df)))%Q.
Proof.
  intros Hwf Hl. eexists. split; [now apply missing_with_limit|].
  intros name. rewrite in_map_iff. split.
  - intros [p [<- Hp]]. apply filter_In in Hp as [Hin Hover].
    pose proof (missing_counts_rows df p Hwf Hin) as Hrows.
    apply over_limit_spec in Hover; [|exact Hrows].
    apply In_missing_counts in Hin as (c & Hc & Hn & Hpos).
    exists c. rewrite <- Hn. auto.
  - intros (c & Hc & Hpos & Hlim).
    assert (Hin : In (name, count_null c) (missing_counts df)).
    { apply In_missing_counts. exists c. simpl. auto. }
    exists (name, count_null c). split; [reflexivity|].
    apply filter_In. split; [exact Hin|].
    apply over_limit_spec; [|exact Hlim].
    exact (missing_counts_rows df _ Hwf Hin).
Qed.

(** X16. When no column of the table has a missing cell [missing] returns
    the empty list, with a limit and without.  When a column has a missing
    cell and no limit is given, or the limit 0, it returns nothing. *)
Theorem missing_without_result (df : frame) :
  ((forall c, In c (cols df) -> count_null (snd c) = 0%nat) ->
   forall limit, missing df limit = Some [])
  /\ ((exists c, In c (cols df) /\ (0 < count_null (snd c))%nat) ->
      missing df None = None /\ missing df (Some 0%Q) = None).
Proof.
  split.
  - intros H limit. unfold missing.
    destruct (missing_counts df) as [|p m] eqn:E; [reflexivity|].
    assert (Hp : In p (missing_counts df)) by (rewrite E; now left).
    apply In_missing_counts in Hp as (c & Hin & Hn & Hpos).
    specialize (H _ Hin). simpl in H. lia.
  - intros [[f c] [Hin Hpos]]. simpl in Hpos. unfold missing.
    destruct (missing_counts df) as [|p m] eqn:E; [|split; reflexivity].
    exfalso.
    assert (Hp : In (f, count_null c) (missing_counts df))
      by (apply In_missing_counts; exists c; simpl; auto).
    rewrite E in Hp. destruct Hp.
Qed.

Lemma insert_sorted_sorted (x : string * nat) (l : list (string * nat)) :
  StronglySorted (fun a b => (snd a <= snd b)%nat) l ->
  StronglySorted (fun a b => (snd a <= snd b)%nat)
    (insert_sorted (fun a b => (snd a <=? snd b)%nat) x l).
Proof.
  induction 1 as [|y l Hl IH Hy]; simpl.
  - constructor; constructor.
  - destruct (snd x <=? snd y)%nat eqn:E.
    + apply Nat.leb_le in E. constructor; [now constructor|].
      constructor; [exact E|]. rewrite Forall_forall in *.
      intros z Hz. specialize (Hy z Hz). lia.
    + apply Nat.leb_gt in E. constructor; [exact IH|].
      rewrite Forall_forall in *. intros z Hz.
      apply In_insert_sorted in Hz as [->|Hz]; [lia|auto].
Qed.

Lemma missing_counts_sorted (df : frame) :
  StronglySorted (fun a b => (snd a <= snd b)%nat) (missing_counts df).
Proof.
  unfold missing_counts.
  induction (filter (fun p => (0 <? snd p)%nat)
               (map (fun c => (fst c, count_null (snd c))) (cols df)))
    as [|x l IH]; [constructor|].
  change (sort (fun a b => (snd a <=? snd b)%nat) (x :: l))
    with (insert_sorted (fun a b => (snd a <=? snd b)%nat) x
            (sort (fun a b => (snd a <=? snd b)%nat) l)).
  now apply insert_sorted_sorted.
Qed.

Lemma StronglySorted_filter {A} (R : A -> A -> Prop) (P : A -> bool)
    (l : list A) :
  StronglySorted R l -> StronglySorted R (filter P l).
Proof.
  induction 1 as [|x l Hl IH Hx]; simpl; [constructor|].
  destruct (P x); [|exact IH]. constructor; [exact IH|].
  rewrite Forall_forall in *. intros y Hy. apply filter_In in Hy as [Hy _].
  auto.
Qed.

(** X17. The names that [missing] returns come in the ascending order of the
    numbers of missing cells of their columns. *)
Theorem missing_sorted (df : frame) (limit : Q) :
  Qeq_bool limit 0 = false ->
  exists l,
    missing df (Some limit) = Some (map fst l)
    /\ StronglySorted (fun a b => (snd a <= snd b)%nat) l
    /\ forall p, In p l ->
                 exists c, In (fst p, c) (cols df) /\ snd p = count_null c.
Proof.
  intros Hl. exists (filter (over_limit df limit) (missing_counts df)).
  split; [now apply missing_with_limit|]. split.
  - apply StronglySorted_filter, missing_counts_sorted.
  - intros p Hp. apply filter_In in Hp as [Hp _].
    apply In_missing_counts in Hp as (c & Hin & Hn & _). now exists c.
Qed.

(** * Properties of fill_simple *)

Lemma for_columns_Forall2 (body : string -> column -> result column)
    (data data' : list (string * column)) :
  for_columns body data = Ok data' ->
  Forall2 (fun c c' => fst c' = fst c /\ body (fst c) (snd c) = Ok (snd c'))
    data data'.
Proof.
  revert data'. induction data as [|[f c] rest IH]; intros data' H.
  - injection H as <-. constructor.
  - simpl in H. apply bind_Ok in H as (c1 & Hc1 & H).
    apply bind_Ok in H as (rest' & Hrest & H). injection H as <-.
    constructor; [now split|]. now apply IH.
Qed.

Lemma for_columns_total_In (body : string -> column -> result column)
    (data : list (string * column)) :
  (forall f c, In (f, c) data -> exists c', body f c = Ok c') ->
  exists data', for_columns body data = Ok data'.
Proof.
  induction data as [|[f c] rest IH]; intros Hb; simpl.
  - now exists [].
  - destruct (Hb f c) as [c' Hc']; [now left|].
    destruct IH as [rest' Hrest]; [intros g d Hg; apply Hb; now right|].
    exists ((f, c') :: rest'). now rewrite Hc', Hrest.
Qed.

Lemma for_columns_raise (body : string -> column -> result column)
    (data : list (string * column)) (e : error) :
  (forall f c e', In (f, c) data -> body f c = Raise e' -> e' = e) ->
  (exists f c, In (f, c) data /\ body f c = Raise e) ->
  for_columns body data = Raise e.
Proof.
  induction data as [|[f c] rest IH]; intros Hb (g & d & Hin & Hr).
  - destruct Hin.
  - simpl. destruct (body f c) as [c1|e1] eqn:E.
    + cbn [bind]. rewrite IH; [reflexivity| |].
      * intros f' c' e' H. apply Hb. now right.
      * destruct Hin as [Heq|Hin]; [|now exists g, d].
        injection Heq as -> ->. congruence.
    + cbn [bind]. f_equal. apply (Hb f c); [now left|exact E].
Qed.

Lemma fillna_kept {A} (a : A) (v : list (option A)) :
  Forall2 value_kept v (fillna a v).
Proof.
  apply Forall2_map_r. intros [x|] _ b H; [exact H|discriminate].
Qed.

Lemma fillna_num_kept (x : num) (v : list num) :
  Forall2 value_kept v (fillna_num x v).
Proof.
  destruct x; simpl; [apply fillna_kept|].
  apply Forall2_same. intros y a H. exact H.
Qed.

Lemma fill_numerical_kept (missing_numerical : string) (v : list num) :
  Forall2 value_kept v (fill_numerical missing_numerical v).
Proof.
  unfold fill_numerical.
  destruct (String.eqb missing_numerical "median");
    [apply fillna_num_kept|].
  destruct (String.eqb missing_numerical "mean"); [apply fillna_num_kept|].
  apply Forall2_same. intros y a H. exact H.
Qed.

Lemma value_kept_same {A} (v : list (option A)) : Forall2 value_kept v v.
Proof.
  apply Forall2_same. intros y a H. exact H.
Qed.

Lemma filled_column_same (target : list string) (f : string) (c : column) :
  filled_column target (f, c) (f, c).
Proof.
  split; [reflexivity|]. split; [reflexivity|]. simpl.
  destruct c as [v|cats v|v].
  - exists v. split; [reflexivity|apply value_kept_same].
  - exists cats, v. split; [reflexivity|].
    split; [apply incl_refl|apply value_kept_same].
  - exists v. split; [reflexivity|apply value_kept_same].
Qed.

Lemma fill_categorical_filled (target : list string)
    (missing_categorical : string) (has_row : bool) (f : string)
    (c c' : column) :
  is_number c = false ->
  mem f target = false ->
  fill_categorical missing_categorical has_row c = Ok c' ->
  filled_column target (f, c) (f, c').
Proof.
  intros Hc Ht H. unfold fill_categorical in H.
  destruct (String.eqb missing_categorical "mode").
  - destruct (negb has_row); [discriminate|].
    destruct (hd_error (series_mode c)) as [m|];
      [|injection H as <-; apply filled_column_same].
    destruct c as [v|cats v|v]; [discriminate| |]; injection H as <-.
    + split; [reflexivity|]. split; [simpl; congruence|]. simpl.
      exists cats, (fillna m v). split; [reflexivity|].
      split; [apply incl_refl|apply fillna_kept].
    + split; [reflexivity|]. split; [simpl; congruence|]. simpl.
      exists (fillna m v). split; [reflexivity|apply fillna_kept].
  - destruct c as [v|cats v|v]; try discriminate. injection H as <-.
    split; [reflexivity|]. split; [simpl; congruence|]. simpl.
    eexists _, _. split; [reflexivity|]. split; [|apply fillna_kept].
    destruct (mem missing_categorical cats);
      [apply incl_refl|apply incl_appl, incl_refl].
Qed.

Lemma fill_column_filled (target : list string)
    (missing_numerical missing_categorical : string)
    (include_numerical include_categorical has_row : bool)
    (f : string) (c c' : column) :
  fill_column target missing_numerical missing_categorical
    include_numerical include_categorical has_row f c = Ok c' ->
  filled_column target (f, c) (f, c').
Proof.
  unfold fill_column, is_numerical_f, is_categorical_f. intros H.
  destruct (mem f target) eqn:Ht.
  - destruct c; cbn [fst snd is_number negb andb] in H; rewrite Ht in H;
      cbn [negb] in H; rewrite !andb_false_r in H; injection H as <-;
      apply filled_column_same.
  - destruct c as [v|cats v|v]; cbn [fst snd is_number negb andb] in H;
      rewrite Ht in H; cbn [negb] in H.
    + destruct (include_numerical && true);
        injection H as <-; [|apply filled_column_same].
      split; [reflexivity|]. split; [simpl; congruence|]. simpl.
      eexists. split; [reflexivity|apply fill_numerical_kept].
    + destruct (include_categorical && true);
        [|injection H as <-; apply filled_column_same].
      now apply (fill_categorical_filled target _ _ f) in H.
    + destruct (include_categorical && true);
        [|injection H as <-; apply filled_column_same].
      now apply (fill_categorical_filled target _ _ f) in H.
Qed.

(** X18. When [fill_simple] returns, the table it returns has the rows and
    the columns of the input, under the same names and with the same dtypes;
    a target column is as it was; no cell that held a value has changed;
    and a category column has the categories it had, maybe with one more. *)
Theorem fill_simple_frame (df : frame) (target : list string)
    (missing_numerical missing_categorical : string)
    (include_numerical include_categorical : bool) (out : frame) :
  fill_simple df target missing_numerical missing_categorical
    include_numerical include_categorical = Ok out ->
  names out = names df
  /\ shape0 out = shape0 df
  /\ Forall2 (filled_column target) (cols df) (cols out).
Proof.
  unfold fill_simple. intros H. apply bind_Ok in H as (data & Hdata & H).
  injection H as <-. apply for_columns_Forall2 in Hdata.
  split; [|split; [reflexivity|]]; unfold names; simpl.
  - induction Hdata as [|c c' l l' [Hf _] _ IH]; simpl; congruence.
  - induction Hdata as [|[f c] [f' c'] l l' [Hf Hb] _ IH]; constructor;
      [|exact IH].
    simpl in Hf, Hb. subst f'. now apply fill_column_filled in Hb.
Qed.

Lemma length_insert_sorted {A} (leb : A -> A -> bool) (x : A) (l : list A) :
  List.length (insert_sorted leb x l) = S (List.length l).
Proof.
  induction l as [|y l IH]; simpl; [reflexivity|].
  destruct (leb x y); simpl; congruence.
Qed.

Lemma length_sort {A} (leb : A -> A -> bool) (l : list A) :
  List.length (sort leb l) = List.length l.
Proof.
  induction l as [|x l IH]; [reflexivity|].
  change (sort leb (x :: l)) with (insert_sorted leb x (sort leb l)).
  now rewrite length_insert_sorted, IH.
Qed.

Lemma nth_error_below {A} (l : list A) (n : nat) :
  (n < List.length l)%nat -> exists a, nth_error l n = Some a.
Proof.
  intros H. destruct (nth_error l n) as [a|] eqn:E; [now exists a|].
  apply nth_error_None in E. lia.
Qed.

Lemma series_median_value (v : list num) :
  dropna v <> [] -> exists q, series_median v = Some q.
Proof.
  intros H. unfold series_median.
  set (xs := sort Qle_bool (dropna v)).
  assert (Hn : (0 < List.length xs)%nat).
  { unfold xs. rewrite length_sort. destruct (dropna v); [congruence|].
    simpl. lia. }
  destruct (Nat.odd (List.length xs)) eqn:E.
  - apply nth_error_below. apply Nat.div_lt; lia.
  - assert (H2 : (2 <= List.length xs)%nat).
    { destruct (List.length xs) as [|[|n]]; [lia|discriminate|lia]. }
    destruct (nth_error_below xs (List.length xs / 2 - 1)) as [a ->].
    { pose proof (Nat.div_lt (List.length xs) 2). lia. }
    destruct (nth_error_below xs (List.length xs / 2)) as [b ->].
    { apply Nat.div_lt; lia. }
    eauto.
Qed.

Lemma series_mean_value (v : list num) :
  dropna v <> [] -> exists q, series_mean v = Some q.
Proof.
  intros H. unfold series_mean. destruct (dropna v); [congruence|eauto].
Qed.

Lemma series_median_none (v : list num) :
  dropna v = [] -> series_median v = None.
Proof.
  intros H. unfold series_median. rewrite H. reflexivity.
Qed.

Lemma series_mean_none (v : list num) :
  dropna v = [] -> series_mean v = None.
Proof.
  intros H. unfold series_mean. now rewrite H.
Qed.

Lemma fillna_complete {A} (a : A) (v : list (option A)) :
  filter isnull (fillna a v) = [].
Proof.
  induction v as [|[x|] v IH]; simpl; auto.
Qed.

Lemma fill_numerical_complete (missing_numerical : string) (v : list num) :
  missing_numerical = "median" \/ missing_numerical = "mean" ->
  (dropna v <> [] ->
   count_null (Num (fill_numerical missing_numerical v)) = 0%nat)
  /\ (dropna v = [] -> fill_numerical missing_numerical v = v).
Proof.
  intros [-> | ->]; unfold fill_numerical; cbn [String.eqb Ascii.eqb
    Bool.eqb andb]; split; intros H.
  - destruct (series_median_value v H) as [q ->]. simpl.
    now rewrite fillna_complete.
  - now rewrite series_median_none.
  - destruct (series_mean_value v H) as [q ->]. simpl.
    now rewrite fillna_complete.
  - now rewrite series_mean_none.
Qed.

(** X19. When [fill_simple] fills the numerical columns with the median or
    the mean and returns, a numerical column that is no target and holds a
    value has no missing cell in the table returned; a numerical column
    that holds no value at all is returned as it was. *)
Theorem fill_simple_numerical_complete (df : frame) (target : list string)
    (missing_numerical missing_categorical : string)
    (include_categorical : bool) (out : frame) (i : nat) (f : string)
    (v : list num) :
  missing_numerical = "median" \/ missing_numerical = "mean" ->
  fill_simple df target missing_numerical missing_categorical true
    include_categorical = Ok out ->
  nth_error (cols df) i = Some (f, Num v) ->
  ~ In f target ->
  exists v',
    nth_error (cols out) i = Some (f, Num v')
    /\ (dropna v <> [] -> count_null (Num v') = 0%nat)
    /\ (dropna v = [] -> v' = v).
Proof.
  intros Hm H Hi Ht. unfold fill_simple in H.
  apply bind_Ok in H as (data & Hdata & H). injection H as <-.
  destruct (for_columns_nth _ _ _ Hdata i f (Num v) Hi) as (c' & Hc' & Hb).
  unfold fill_column, is_numerical_f in Hb. cbn [fst snd is_number] in Hb.
  apply mem_false in Ht. rewrite Ht in Hb. cbn [negb andb] in Hb.
  injection Hb as <-. eexists. split; [exact Hc'|].
  now apply fill_numerical_complete.
Qed.

(** X20. [fill_simple] with a label other than 'mode' for the columns of
    labels.  When every column of objects is a target the call returns, and
    a category column that is no target has the label in every cell that was
    missing and among its categories, which are the ones it had and the
    label.  When a column of objects is no target the call raises an
    AttributeError. *)
Theorem fill_simple_label (df : frame) (target : list string)
    (missing_numerical label : string) (include_numerical : bool) :
  label <> "mode" ->
  ((forall f v, In (f, Obj v) (cols df) -> In f target) ->
   exists out,
     fill_simple df target missing_numerical label include_numerical true
     = Ok out
     /\ forall i f cats v,
         nth_error (cols df) i = Some (f, Cat cats v) ->
         ~ In f target ->
         exists cats',
           nth_error (cols out) i = Some (f, Cat cats' (fillna label v))
           /\ (forall s, In s cats' <-> In s cats \/ s = label)
           /\ count_null (Cat cats' (fillna label v)) = 0%nat)
  /\ ((exists f v, In (f, Obj v) (cols df) /\ ~ In f target) ->
      fill_simple df target missing_numerical label include_numerical true
      = Raise AttributeError).
Proof.
  intros Hl. apply String.eqb_neq in Hl.
  assert (Hbody : forall hr f c,
    fill_column target missing_numerical label include_numerical true hr f c
    = match c with
      | Num w =>
          if include_numerical && negb (mem f target)
          then Ok (Num (fill_numerical missing_numerical w)) else Ok c
      | Cat cats w =>
          if negb (mem f target)
          then Ok (Cat (if mem label cats then cats else cats ++ [label])
                     (fillna label w))
          else Ok c
      | Obj w => if negb (mem f target) then Raise AttributeError else Ok c
      end).
  { intros hr f c. unfold fill_column, is_numerical_f, is_categorical_f,
      fill_categorical. rewrite Hl.
    destruct c; cbn [fst snd is_number negb andb]; reflexivity. }
  split.
  - intros Hobj. unfold fill_simple.
    match goal with
    | |- context [for_columns ?b (cols df)] =>
        destruct (for_columns_total_In b (cols df)) as [data Hdata]
    end.
    { intros f c Hin. rewrite Hbody. destruct c as [w|cats w|w].
      - destruct (include_numerical && negb (mem f target)); eauto.
      - destruct (negb (mem f target)); eauto.
      - apply Hobj, mem_In in Hin. rewrite Hin. simpl. eauto. }
    exists (Frame (shape0 df) data). rewrite Hdata. split; [reflexivity|].
    intros i f cats v Hi Ht.
    destruct (for_columns_nth _ _ _ Hdata i f _ Hi) as (c' & Hc' & Hb).
    rewrite Hbody in Hb. apply mem_false in Ht. rewrite Ht in Hb.
    cbn [negb] in Hb. injection Hb as <-. eexists. split; [exact Hc'|].
    split.
    + intros s. destruct (mem label cats) eqn:E.
      * apply mem_In in E. split; [auto|]. intros [H| ->]; auto.
      * rewrite in_app_iff. simpl. split.
        -- intros [H|[H|[]]]; auto.
        -- intros [H| ->]; auto.
    + simpl. now rewrite fillna_complete.
  - intros (f & v & Hin & Ht). unfold fill_simple.
    rewrite (for_columns_raise _ _ AttributeError); [reflexivity| |].
    + intros g c e' _ H. rewrite Hbody in H. destruct c as [w|cats w|w].
      * destruct (include_numerical && negb (mem g target)); discriminate.
      * destruct (negb (mem g target)); discriminate.
      * destruct (negb (mem g target)); [congruence|discriminate].
    + exists f, (Obj v). split; [exact Hin|]. rewrite Hbody.
      apply mem_false in Ht. now rewrite Ht.
Qed.

(** X21. [simple_fill] without the columns of labels never raises: it
    returns a table in which the columns that are not numerical are as they
    were, and a numerical column that is no target and holds a value has no
    missing cell, its other cells being as they were. *)
Theorem simple_fill_numerical_only (df : frame) (target : list string) :
  exists out,
    simple_fill df target true false = Ok out
    /\ forall i f c,
        nth_error (cols df) i = Some (f, c) ->
        (is_number c = false -> nth_error (cols out) i = Some (f, c))
        /\ (forall v,
              c = Num v -> ~ In f target -> dropna v <> [] ->
              exists v',
                nth_error (cols out) i = Some (f, Num v')
                /\ count_null (Num v') = 0%nat
                /\ Forall2 value_kept v v').
Proof.
  unfold simple_fill, fill_simple.
  match goal with
  | |- context [for_columns ?b (cols df)] =>
      destruct (for_columns_total b (cols df)) as [data Hdata]
  end.
  { intros f c. unfold fill_column. destruct c as [w|cats w|w];
      cbn [andb]; eauto.
    destruct (is_numerical_f target (f, Num w)); eauto. }
  exists (Frame (shape0 df) data). rewrite Hdata. split; [reflexivity|].
  intros i f c Hi.
  destruct (for_columns_nth _ _ _ Hdata i f c Hi) as (c' & Hc' & Hb).
  split.
  - intros Hc. destruct c; [discriminate| |]; cbn in Hb;
      injection Hb as <-; exact Hc'.
  - intros v -> Ht Hv. unfold fill_column, is_numerical_f in Hb.
    cbn [fst snd is_number] in Hb. apply mem_false in Ht. rewrite Ht in Hb.
    cbn [negb andb] in Hb. injection Hb as <-. eexists.
    split; [exact Hc'|]. split.
    + now apply fill_numerical_complete; [left|].
    + apply fill_numerical_kept.
Qed.

(** * Properties of classify_data *)

Lemma lookup_In {V} (k : string) (v : V) (d : dict V) :
  lookup k d = Some v -> In (k, v) d.
Proof.
  induction d as [|[k' v'] d IH]; simpl; [discriminate|].
  destruct (String.eqb k k') eqn:E; [|auto].
  apply String.eqb_eq in E. subst k'. intros H. injection H as ->.
  now left.
Qed.







Section Classify.

Set Default Proof Using "Type".

Variable str_of_float : Q -> string.
Variable float_of_str : string -> option Q.






End Classify.

(** * Further properties of replace_by_dummies *)

Lemma filter_none {A} (p : A -> bool) (l : list A) :
  (forall x, In x l -> p x = false) -> filter p l = [].
Proof.
  induction l as [|x l IH]; intros H; simpl; [reflexivity|].
  rewrite (H x) by now left. apply IH. intros y Hy. apply H. now right.
Qed.

Lemma filter_not_mem_self (l : list string) :
  filter (fun n => negb (mem n l)) (unique String.eqb l) = [].
Proof.
  apply filter_none. intros x Hx. apply (proj1 (In_unique x l)) in Hx.
  apply mem_In in Hx. now rewrite Hx.
Qed.

Lemma NoDup_lookup {V} (k : string) (v : V) (d : dict V) :
  NoDup (map fst d) -> In (k, v) d -> lookup k d = Some v.
Proof.
  induction d as [|[k' v'] d IH]; simpl; intros Hnd Hin; [destruct Hin|].
  inversion Hnd as [|? ? Hk Hnd']; subst.
  destruct Hin as [Heq|Hin].
  - injection Heq as -> ->. now rewrite String.eqb_refl.
  - destruct (String.eqb k k') eqn:E; [|auto].
    apply String.eqb_eq in E. subst k'. exfalso. apply Hk.
    apply in_map_iff. now exists (k, v).
Qed.

Section MoreIndicators.

Set Default Proof Using "Type".

Variable str_of_float : Q -> string.

(** X24. The vocabulary that [replace_by_dummies] returns from a table
    replays on that table: the call with the vocabulary returns the same
    table and the same vocabulary as the call without one. *)
Theorem replace_by_dummies_fit_then_replay (data : frame)
    (target : list string) (drop_first : bool) (out : frame)
    (d : list string) :
  replace_by_dummies str_of_float data target None drop_first = Ok (out, d) ->
  replace_by_dummies str_of_float data target (Some d) drop_first
  = Ok (out, d).
Proof.
  unfold replace_by_dummies. intros H.
  apply bind_Ok in H as ([cs found] & Hloop & H). rewrite Hloop.
  cbn [truthy negb bind] in *.
  apply bind_Ok in H as (cs' & Hcat & H). injection H as <- <-.
  destruct found as [|x found]; cbn [truthy negb].
  - now rewrite Hcat.
  - rewrite !filter_not_mem_self. cbn [fold_left]. now rewrite Hcat.
Qed.

Lemma replace_by_dummies_fit_spec (data : frame) (target : list string)
    (drop_first : bool) :
  NoDup (names data) ->
  (forall n, In n (produced_dummies str_of_float data target drop_first) ->
             ~ In n (names data)) ->
  let found := produced_dummies str_of_float data target drop_first in
  exists out,
    replace_by_dummies str_of_float data target None drop_first
    = Ok (out, found)
    /\ shape0 out = shape0 data
    /\ (forall n,
          In n (names out) <->
          In n found
          \/ (In n (names data) /\ ~ In n (categorical_f data target)))
    /\ (forall m c,
          In m found -> In (m, c) (cols out) -> is_category c = true).
Proof.
  intros Hnd Hcol found.
  destruct (dummies_loop_spec str_of_float drop_first
              (categorical_f data target) (cols data) [])
    as (cs1 & Hloop & Hn1).
  { now apply NoDup_categorical_f. }
  { intros f Hf. now apply categorical_f_in_names in Hf. }
  { intros n Hn Hn'. apply (Hcol n Hn).
    now apply categorical_f_in_names in Hn'. }
  rewrite app_nil_l in Hloop. fold (names data) in Hn1.
  fold (produced_dummies str_of_float data target drop_first) in Hloop, Hn1.
  fold found in Hloop, Hn1.
  destruct (categorize_loop_spec str_of_float found cs1)
    as (cs2 & Hcat & Hn2 & Hcols2).
  { intros e He. apply Hn1. now right. }
  exists (Frame (shape0 data) cs2). split.
  { unfold replace_by_dummies. rewrite Hloop. cbn [truthy negb bind].
    now rewrite Hcat. }
  split; [reflexivity|]. split.
  - intros n. unfold names at 1. simpl. rewrite Hn2, Hn1. tauto.
  - intros m c Hm Hin. simpl in Hin.
    destruct (Hcols2 m c Hin) as (c0 & _ & [[_ ->]|[Hnot _]]);
      [|contradiction].
    now destruct c0.
Qed.


(** X26. [create_dummy] without a vocabulary drops no category: for a
    category column [f] that is no target, the vocabulary and the table
    returned have the indicator column [f_c] of every category [c] of the
    column, also of a category that no cell holds; the column [f] itself is
    no more in the table. *)
Theorem create_dummy_keeps_categories (data : frame) (target : list string)
    (f : string) (cats : list string) (v : list cell) :
  NoDup (names data) ->
  (forall n, In n (produced_dummies str_of_float data target false) ->
             ~ In n (names data)) ->
  In (f, Cat cats v) (cols data) ->
  ~ In f target ->
  exists out d,
    create_dummy str_of_float data target None = Ok (out, d)
    /\ ~ In f (names out)
    /\ forall c,
        In c cats ->
        In (f ++ "_" ++ c)%string d /\ In (f ++ "_" ++ c)%string (names out).
Proof.
  intros Hnd Hcol Hin Ht.
  destruct (replace_by_dummies_fit_spec data target false Hnd Hcol)
    as (out & Hcall & _ & Hnames & _).
  exists out, (produced_dummies str_of_float data target false).
  split; [exact Hcall|].
  assert (Hf : In f (categorical_f data target)).
  { unfold categorical_f, select_category. apply filter_In. split.
    - apply in_map_iff. exists (f, Cat cats v). split; [reflexivity|].
      apply filter_In. now split.
    - apply mem_false in Ht. now rewrite Ht. }
  split.
  - intros Hout. apply Hnames in Hout as [Hout|[_ Hout]]; [|contradiction].
    apply (Hcol f Hout). now apply categorical_f_in_names in Hf.
  - intros c Hc.
    assert (Hp : In (f ++ "_" ++ c)%string
                   (produced_dummies str_of_float data target false)).
    { unfold produced_dummies, produced_from. apply in_flat_map.
      exists f. split; [exact Hf|].
      rewrite (NoDup_lookup f (Cat cats v) (cols data) Hnd Hin).
      unfold get_dummies. cbn [categorical_view astype_category].
      rewrite map_map. cbn [fst]. apply in_map_iff. now exists c. }
    split; [exact Hp|]. apply Hnames. now left.
Qed.

End MoreIndicators.

(** * The further properties on concrete tables *)

(** X1 on the column [1, NaN, 3, 5]. *)
Lemma scale_frame_witness :
  exists out p,
    scale sqrt_approx table_missing None "std" = Ok (out, p)
    /\ shape0 out = shape0 table_missing
    /\ Forall2 scaled_column (cols table_missing) (cols out).
Proof.
  eexists. eexists. split; [reflexivity|].
  destruct (scale_frame sqrt_approx table_missing None "std" _ _ eq_refl)
    as (H1 & H2 & _).
  split; [exact H1|exact H2].
Defined.

(** X2 on a table with a numerical column [x] and two columns of labels. *)
Lemma scale_fit_keys_witness :
  exists out p,
    scale sqrt_approx table_mixed None "minmax" = Ok (out, p)
    /\ In "x" (map fst p)
    /\ ~ In "c" (map fst p).
Proof.
  destruct (scale_fit_keys sqrt_approx table_mixed "minmax" eq_refl)
    as (out & p & H1 & H2).
  exists out, p. split; [exact H1|]. split.
  - apply H2. eexists. left. reflexivity.
  - intros H. apply H2 in H as [v Hin]. simpl in Hin.
    intuition discriminate.
Defined.

(** X3 on the columns [x] and [y] replayed with the statistics of [x]
    alone. *)
Lemma scale_replay_keys_witness :
  exists f,
    scale sqrt_approx table_target (Some [("x", (Some 0%Q, Some 1%Q))]) "std"
    = Raise (KeyError f)
    /\ lookup f [("x", (Some 0%Q, Some 1%Q))] = None.
Proof.
  pose proof (scale_replay_keys sqrt_approx table_target
                ("x", (Some 0%Q, Some 1%Q)) [] "std" eq_refl) as H.
  cbv zeta in H. destruct H as (_ & H & _).
  destruct H as (f & v & H1 & _ & H3).
  - exists "y", values_100. split; [right; left; reflexivity|reflexivity].
  - exists f. split; assumption.
Defined.

(** X4 on the column [1, NaN, 3, 5]. *)
Lemma standardize_mean_zero_witness :
  exists out p v' m',
    standardize sqrt_approx table_missing None = Ok (out, p)
    /\ nth_error (cols out) 0 = Some ("x", Num v')
    /\ series_mean v' = Some m'
    /\ (m' == 0)%Q.
Proof.
  apply (standardize_mean_zero sqrt_approx table_missing 0 "x"
           [Some 1%Q; None; Some 3%Q; Some 5%Q] (9 # 3)%Q 2.000000%Q).
  - reflexivity.
  - reflexivity.
  - reflexivity.
  - intros H. vm_compute in H. discriminate H.
Defined.

(** X5 on the column [1, 2, 3, 4, 100]. *)
Lemma scale_minmax_range_witness :
  exists out p v',
    scale sqrt_approx table_100 None "minmax" = Ok (out, p)
    /\ nth_error (cols out) 0 = Some ("x", Num v').
Proof.
  destruct (scale_minmax_range sqrt_approx table_100 0 "x" values_100
              1%Q 100%Q) as (out & p & v' & H1 & H2 & _).
  - reflexivity.
  - reflexivity.
  - reflexivity.
  - intros H. vm_compute in H. discriminate H.
  - exists out, p, v'. split; assumption.
Defined.

(** X6 on the same column. *)
Lemma scale_maxabs_range_witness :
  exists out p v',
    scale sqrt_approx table_100 None "maxabs" = Ok (out, p)
    /\ nth_error (cols out) 0 = Some ("x", Num v').
Proof.
  destruct (scale_maxabs_range sqrt_approx table_100 0 "x" values_100
              1%Q 100%Q) as (out & p & v' & H1 & H2 & _).
  - reflexivity.
  - reflexivity.
  - reflexivity.
  - intros H. vm_compute in H. discriminate H.
  - exists out, p, v'. split; assumption.
Defined.

(** X7 on the same column. *)
Lemma scale_maxabs_fit_then_replay_witness :
  exists out p out2 v2,
    scale sqrt_approx table_100 None "maxabs" = Ok (out, p)
    /\ scale sqrt_approx out (Some p) "maxabs" = Ok (out2, p)
    /\ nth_error (cols out2) 0 = Some ("x", Num v2)
    /\ Forall2 same_cell values_100 v2.
Proof.
  apply (scale_maxabs_fit_then_replay sqrt_approx table_100 0 "x" values_100
           1%Q 100%Q).
  - distinct_names.
  - reflexivity.
  - reflexivity.
  - reflexivity.
  - intros H. vm_compute in H. discriminate H.
Defined.

(** X8 on the table of one row. *)
Lemma remove_outliers_few_values_witness :
  nth_error (cols (remove_outliers sqrt_approx table_single 3)) 0 =
  Some ("x", Num [None]).
Proof.
  apply (remove_outliers_few_values sqrt_approx table_single 3 0 "x"
           [Some 5%Q]).
  - reflexivity.
  - simpl. lia.
Defined.

(** X10 on a table with a category column and a column of objects. *)
Lemma force_categorical_idempotent_witness :
  categories_ok table_mixed = true
  /\ categories_ok (force_categorical table_mixed) = true.
Proof.
  destruct (force_categorical_idempotent table_mixed) as (_ & _ & _ & H).
  split; [reflexivity|]. apply H. reflexivity.
Defined.

(** X12 on the cities. *)
Lemma remove_categories_frame_witness :
  exists out d,
    remove_categories table_cities None 0.1 None = Ok (out, d)
    /\ shape0 out = shape0 table_cities
    /\ Forall2 levelled_column (cols table_cities) (cols out).
Proof.
  eexists. eexists. split; [reflexivity|].
  destruct (remove_categories_frame table_cities None 0.1 None _ _ eq_refl)
    as (H1 & H2 & _).
  split; [exact H1|exact H2].
Defined.

(** X13 on a table with a category column and a column of objects. *)
Lemma remove_categories_fit_then_replay_witness :
  exists out d,
    remove_categories table_mixed None 0.5 None = Ok (out, d)
    /\ remove_categories table_mixed None 0.9 (Some d) = Ok (out, d).
Proof.
  destruct (remove_categories_fit_then_replay table_mixed None 0.5)
    as (out & d & H1 & H2).
  - reflexivity.
  - distinct_names.
  - exists out, d. split; [exact H1|apply H2].
Defined.

(** X14 on the same table, replayed with a vocabulary that has no entry for
    the column [t]. *)
Lemma remove_categories_replay_keys_witness :
  ~ exists out,
      remove_categories table_mixed None 0.5 (Some [("c", ["a"; "b"])])
      = Ok (out, [("c", ["a"; "b"])]).
Proof.
  pose proof (remove_categories_replay_keys table_mixed None 0.5
                ("c", ["a"; "b"]) []) as H.
  cbv zeta in H. destruct H as (H & _). intros Hex.
  assert (Hr : replayable [("c", ["a"; "b"])] "t" = true).
  { apply (proj1 H Hex ("t", Cat ["u"; "w"] [Some "u"; None; Some "w"]));
      [|reflexivity].
    right. right. left. reflexivity. }
  discriminate Hr.
Defined.

(** X15 on a table of three rows in which every column has one missing
    cell, with the limit 0.2. *)
Lemma missing_members_witness :
  exists l, missing table_mixed (Some 0.2%Q) = Some l /\ In "x" l.
Proof.
  destruct (missing_members table_mixed 0.2%Q eq_refl eq_refl)
    as (l & H1 & H2).
  exists l. split; [exact H1|]. apply H2.
  exists (Num [Some 1%Q; None; Some 3%Q]). split; [left; reflexivity|].
  split; [simpl; lia|reflexivity].
Defined.

(** X16 on a table without a missing cell and on a table with some. *)
Lemma missing_without_result_witness :
  missing table_012 (Some 0.5%Q) = Some []
  /\ missing table_mixed None = None.
Proof.
  split.
  - destruct (missing_without_result table_012) as [H _]. apply H.
    intros c [<-|[]]. reflexivity.
  - destruct (missing_without_result table_mixed) as [_ H]. apply H.
    exists ("x", Num [Some 1%Q; None; Some 3%Q]).
    split; [left; reflexivity|simpl; lia].
Defined.

(** X17 on the same table. *)
Lemma missing_sorted_witness :
  exists l,
    missing table_mixed (Some 0.2%Q) = Some (map fst l)
    /\ StronglySorted (fun a b => (snd a <= snd b)%nat) l.
Proof.
  destruct (missing_sorted table_mixed 0.2%Q eq_refl) as (l & H1 & H2 & _).
  exists l. split; assumption.
Defined.

(** X18 on a table with the target [t]. *)
Lemma fill_simple_frame_witness :
  exists out,
    fill_simple table_mixed ["t"] "median" "mode" true true = Ok out
    /\ names out = names table_mixed
    /\ Forall2 (filled_column ["t"]) (cols table_mixed) (cols out).
Proof.
  eexists. split; [reflexivity|].
  destruct (fill_simple_frame table_mixed ["t"] "median" "mode" true true _
              eq_refl) as (H1 & _ & H3).
  split; [exact H1|exact H3].
Defined.

(** X19 on the column [1, NaN, 3] filled with its mean. *)
Lemma fill_simple_numerical_complete_witness :
  exists out v',
    fill_simple table_mixed ["t"] "mean" "mode" true true = Ok out
    /\ nth_error (cols out) 0 = Some ("x", Num v')
    /\ count_null (Num v') = 0%nat.
Proof.
  destruct (fill_simple_numerical_complete table_mixed ["t"] "mean" "mode"
              true _ 0 "x" [Some 1%Q; None; Some 3%Q] (or_intror eq_refl)
              eq_refl eq_refl) as (v' & H1 & H2 & _).
  - simpl. intuition discriminate.
  - eexists. exists v'. split; [reflexivity|]. split; [exact H1|].
    apply H2. discriminate.
Defined.

(** X20 on a table whose column of objects is the target, and on a table
    with a column of objects that is no target. *)
Lemma fill_simple_label_witness :
  (exists out,
      fill_simple table_mixed ["t"] "median" "none" true true = Ok out)
  /\ fill_simple table_tie [] "median" "none" true true
     = Raise AttributeError.
Proof.
  split.
  - destruct (fill_simple_label table_mixed ["t"] "median" "none" true)
      as [H _]; [discriminate|].
    destruct H as (out & H & _).
    + intros f v Hin. simpl in Hin.
      destruct Hin as [Hin|[Hin|[Hin|[]]]]; try discriminate Hin.
      injection Hin as <- _. left. reflexivity.
    + now exists out.
  - destruct (fill_simple_label table_tie [] "median" "none" true)
      as [_ H]; [discriminate|].
    apply H. exists "o", cells_tie. split; [right; left; reflexivity|].
    intros [].
Defined.

(** X21 on the same table. *)
Lemma simple_fill_numerical_only_witness :
  exists out v',
    simple_fill table_mixed ["t"] true false = Ok out
    /\ nth_error (cols out) 0 = Some ("x", Num v')
    /\ count_null (Num v') = 0%nat.
Proof.
  destruct (simple_fill_numerical_only table_mixed ["t"]) as (out & H1 & H2).
  destruct (H2 0%nat "x" (Num [Some 1%Q; None; Some 3%Q]) eq_refl)
    as [_ H3].
  destruct (H3 [Some 1%Q; None; Some 3%Q] eq_refl) as (v' & H4 & H5 & _).
  - simpl. intuition discriminate.
  - discriminate.
  - exists out, v'. split; [exact H1|]. split; assumption.
Defined.



(** X24 on the table of the categories A and C. *)
Lemma replace_by_dummies_fit_then_replay_witness :
  exists out,
    replace_by_dummies str_indicator table_AC [] None false
    = Ok (out, ["c_A"; "c_C"])
    /\ replace_by_dummies str_indicator table_AC [] (Some ["c_A"; "c_C"])
         false
       = Ok (out, ["c_A"; "c_C"]).
Proof.
  eexists. split; [reflexivity|].
  apply (replace_by_dummies_fit_then_replay str_indicator). reflexivity.
Defined.


(** X26 on the same table. *)
Lemma create_dummy_keeps_categories_witness :
  exists out d,
    create_dummy str_indicator table_AC [] None = Ok (out, d)
    /\ ~ In "c" (names out)
    /\ In "c_C" d.
Proof.
  destruct (create_dummy_keeps_categories str_indicator table_AC [] "c"
              ["A"; "C"] [Some "A"; Some "C"])
    as (out & d & H1 & H2 & H3).
  - distinct_names.
  - intros n Hn. vm_compute in Hn. destruct Hn as [<-|[<-|[]]];
      simpl; intuition discriminate.
  - right. left. reflexivity.
  - intros [].
  - exists out, d. split; [exact H1|]. split; [exact H2|].
    apply (H3 "C"). right. left. reflexivity.
Defined.
